(** * eggism: the potential field and the equipotential radius solver

    A shallow embedding of [PhysicsSimulation] (simulation.js): the scalar
    potential of point masses on the vertical axis under uniform rotation,
    its analytic gradient, and the fixed-budget bisection that inverts the
    potential along a ray.

    The JavaScript code computes on numbers.  The functions below are
    written once, over an interface of the arithmetic the source uses
    ([Number]), and read at two carriers:
    - [R], the real numbers: the arithmetic the algorithm is designed
      against, and the one the properties are stated and proved in;
    - [float], IEEE 754 binary64 with round-to-nearest, which is what a
      JavaScript engine runs: the same definitions evaluate there on
      concrete inputs, and what depends on the control flow only (the
      sentinel, the skipped masses, the bracket of the solver and the order
      of its results) is proved there as well.

    Properties of the values of the potential and of the gradient (closed
    forms, symmetry, monotonicity along a ray, the round trip) hold over
    [R].  In binary64 the computed values follow the real ones up to
    rounding only: each such property comes with a concrete binary64 input
    at which it fails as a statement about the doubles and, where there is
    one, with what the code does guarantee on doubles. *)

From Stdlib Require Import Reals Lra Lia ZArith List Bool Floats Uint63.
From Stdlib Require Import Psatz.
Import ListNotations.

(** ** The arithmetic of the source *)

Class Number (T : Type) : Type := {
  lit  : Z -> nat -> T;      (* [lit n k] is the decimal literal n / 10^k *)
  add  : T -> T -> T;
  sub  : T -> T -> T;
  mul  : T -> T -> T;
  div  : T -> T -> T;
  sqrt : T -> T;             (* Math.sqrt *)
  ltb  : T -> T -> bool      (* the comparison [a < b] *)
}.

Declare Scope num_scope.
Delimit Scope num_scope with num.
Infix "+" := add : num_scope.
Infix "-" := sub : num_scope.
Infix "*" := mul : num_scope.
Infix "/" := div : num_scope.
Infix "<?" := ltb : num_scope.

(** The real numbers.  [a < b] is decided classically. *)

Definition Rltb (a b : R) : bool := if Rlt_dec a b then true else false.

#[export] Instance RNumber : Number R := {|
  lit n k := (IZR n / IZR (10 ^ Z.of_nat k))%R;
  add := Rplus;
  sub := Rminus;
  mul := Rmult;
  div := Rdiv;
  sqrt := R_sqrt.sqrt;
  ltb := Rltb
|}.

(** Binary64.  A decimal literal of the source is the correctly rounded
    quotient of two integers that are themselves exact in binary64. *)

Definition float_of_Z (n : Z) : float :=
  match n with
  | Z0 => PrimFloat.zero
  | Zpos _ => PrimFloat.of_uint63 (Uint63.of_Z n)
  | Zneg _ => PrimFloat.opp (PrimFloat.of_uint63 (Uint63.of_Z (Z.opp n)))
  end.

#[export] Instance FloatNumber : Number float := {|
  lit n k := PrimFloat.div (float_of_Z n) (float_of_Z (10 ^ Z.of_nat k));
  add := PrimFloat.add;
  sub := PrimFloat.sub;
  mul := PrimFloat.mul;
  div := PrimFloat.div;
  sqrt := PrimFloat.sqrt;
  ltb := PrimFloat.ltb
|}.

(** ** The data model *)

(** An entry [{ y, m }] of [this.masses]: a mass [m] at [(0, y, 0)]. *)
Module PointMass.
Record t {T : Type} : Type := mk { y : T; m : T }.
Arguments t : clear implicits.
End PointMass.

(** The result type of [getGradient]. *)
Module THREE.
Record Vector3 {T : Type} : Type := mkVector3 { x : T; y : T; z : T }.
Arguments Vector3 : clear implicits.
End THREE.

(** The fields of a [PhysicsSimulation] object. *)
Record PhysicsSimulation {T : Type} : Type := mkSim {
  masses : list (PointMass.t T);
  G : T;
  omega : T
}.
Arguments PhysicsSimulation : clear implicits.

Section Simulation.
Context {T : Type} `{Number T}.
Local Open Scope num_scope.

(** [constructor] of the class that also defines [getGradient]. *)
Definition constructor : PhysicsSimulation T :=
  {| masses := [ PointMass.mk T (lit (-15) 1) (lit 4 0);
                 PointMass.mk T (lit 2 0) (lit 2 0) ];
     G := lit 1 0;
     omega := lit 0 0 |}.

(** [constructor] of the other copy of the class (no [getGradient]):
    the same but for the rotation speed. *)
Definition constructor_no_gradient : PhysicsSimulation T :=
  {| masses := [ PointMass.mk T (lit (-15) 1) (lit 4 0);
                 PointMass.mk T (lit 2 0) (lit 2 0) ];
     G := lit 1 0;
     omega := lit 5 1 |}.

(** *** getPotential *)

(** How the loop over the masses is left: by [return] from inside the
    body, or by running off the end with the accumulated [potential]. *)
Inductive loop_result : Type :=
| Return (v : T)
| Done (potential : T).

Fixpoint potential_loop (this : PhysicsSimulation T) (x y z : T)
         (ms : list (PointMass.t T)) (potential : T) : loop_result :=
  match ms with
  | [] => Done potential
  | mass :: rest =>
      let dx := x in
      let dy := y - PointMass.y mass in
      let dz := z in
      let dist := sqrt (dx * dx + dy * dy + dz * dz) in
      if dist <? lit 1 1 then Return (lit (-10000) 0)
      else potential_loop this x y z rest
             (potential - (G this * PointMass.m mass) / dist)
  end.

Definition getPotential (this : PhysicsSimulation T) (x y z : T) : T :=
  match potential_loop this x y z (masses this) (lit 0 0) with
  | Return v => v
  | Done potential =>
      let r_xy_sq := x * x + z * z in
      potential - lit 5 1 * omega this * omega this * r_xy_sq
  end.

(** *** solveRadius *)

Definition iterations : nat := 15.

(** The [for] loop, [n] iterations still to run, on the bracket
    [(rMin, rMax)]. *)
Fixpoint bisect (this : PhysicsSimulation T) (dx dy dz targetPotential : T)
         (n : nat) (rMin rMax : T) : T * T :=
  match n with
  | O => (rMin, rMax)
  | S n' =>
      let rMid := (rMin + rMax) * lit 5 1 in
      let val := getPotential this (dx * rMid) (dy * rMid) (dz * rMid) in
      if val <? targetPotential
      then bisect this dx dy dz targetPotential n' rMid rMax
      else bisect this dx dy dz targetPotential n' rMin rMid
  end.

Definition solveRadius (this : PhysicsSimulation T)
           (dx dy dz targetPotential : T) : T :=
  let '(rMin, rMax) :=
    bisect this dx dy dz targetPotential iterations (lit 3 0) (lit 8 0) in
  (rMin + rMax) * lit 5 1.

(** *** getGradient *)

Fixpoint gradient_loop (this : PhysicsSimulation T) (x y z : T)
         (ms : list (PointMass.t T)) (g : T * T * T) : T * T * T :=
  match ms with
  | [] => g
  | mass :: rest =>
      let '(gx, gy, gz) := g in
      let dx := x in
      let dy := y - PointMass.y mass in
      let dz := z in
      let r2 := dx * dx + dy * dy + dz * dz in
      let r := sqrt r2 in
      let r3 := r2 * r in
      if r <? lit 1 1 then gradient_loop this x y z rest g
      else
        let factor := (G this * PointMass.m mass) / r3 in
        gradient_loop this x y z rest
          (gx + factor * dx, gy + factor * dy, gz + factor * dz)
  end.

Definition getGradient (this : PhysicsSimulation T) (x y z : T)
  : THREE.Vector3 T :=
  let '(gx, gy, gz) :=
    gradient_loop this x y z (masses this) (lit 0 0, lit 0 0, lit 0 0) in
  let gx := gx - omega this * omega this * x in
  let gz := gz - omega this * omega this * z in
  THREE.mkVector3 T gx gy gz.

End Simulation.

(** ** What the callers change *)

(** [sim.masses = ms]. *)
Definition set_masses {T : Type} (this : PhysicsSimulation T)
           (ms : list (PointMass.t T)) : PhysicsSimulation T :=
  {| masses := ms; G := G this; omega := omega this |}.

(** [sim.omega = w]. *)
Definition set_omega {T : Type} (this : PhysicsSimulation T) (w : T)
  : PhysicsSimulation T :=
  {| masses := masses this; G := G this; omega := w |}.

(** ** The singularity test, over any carrier *)

(** The test [dist < 0.1] of both loops, for one mass. *)
Definition within_singularity {T : Type} `{Number T} (x y z : T)
           (mass : PointMass.t T) : bool :=
  let dx := x in
  let dy := (y - PointMass.y mass)%num in
  let dz := z in
  (sqrt (dx * dx + dy * dy + dz * dz) <? lit 1 1)%num.

Definition outside_singularity {T : Type} `{Number T} (x y z : T)
           (mass : PointMass.t T) : bool :=
  negb (within_singularity x y z mass).

(** ** One iteration of the gradient loop, over any carrier *)

(** The body of the loop of [getGradient] for a mass that is not skipped:
    the accumulator after it. *)
Definition gradient_step {T : Type} `{Number T} (this : PhysicsSimulation T)
           (x y z : T) (g : T * T * T) (mass : PointMass.t T) : T * T * T :=
  let '(gx, gy, gz) := g in
  let dy := (y - PointMass.y mass)%num in
  let r2 := (x * x + dy * dy + z * z)%num in
  let factor := ((G this * PointMass.m mass) / (r2 * sqrt r2))%num in
  ((gx + factor * x)%num, (gy + factor * dy)%num, (gz + factor * z)%num).

(** ** The vocabulary of the properties, over the real numbers *)

Local Open Scope R_scope.

(** The real number a binary64 value stands for: [(-1)^s · m · 2^e] for a
    finite value; 0 for the infinities and NaN. *)
Definition binary64_exact (f : float) : R :=
  match Prim2SF f with
  | S754_finite s m e =>
      IZR (if s then Z.neg m else Z.pos m)
      * (if (0 <=? e)%Z then IZR (2 ^ e) else / IZR (2 ^ (- e)))
  | _ => 0
  end.

(** The Euclidean distance from [(x, y, z)] to the location
    [(0, PointMass.y mass, 0)] of a mass. *)
Definition distance (x y z : R) (mass : PointMass.t R) : R :=
  R_sqrt.sqrt (x * x + (y - PointMass.y mass) * (y - PointMass.y mass) + z * z).

(** The sum of a list of reals. *)
Definition Rsum (l : list R) : R := fold_right Rplus 0 l.

(** A mass is [far] from a point when it is outside the singularity
    radius, [near] otherwise. *)
Definition near (x y z : R) (mass : PointMass.t R) : Prop :=
  distance x y z mass < 0.1.

Definition far (x y z : R) (mass : PointMass.t R) : Prop :=
  0.1 <= distance x y z mass.

Definition farb (x y z : R) (mass : PointMass.t R) : bool :=
  negb (Rltb (distance x y z mass) 0.1).

(** The coefficient [G·m_i / r_i³] of the gravity term of the gradient. *)
Definition pull (this : PhysicsSimulation R) (x y z : R) (mass : PointMass.t R) : R :=
  G this * PointMass.m mass / distance x y z mass ^ 3.

(** The masses that contribute to the gradient at [(x, y, z)]. *)
Definition contributing (this : PhysicsSimulation R) (x y z : R) : list (PointMass.t R) :=
  filter (farb x y z) (masses this).

(** The closed form of the gradient. *)
Definition gradient_formula (this : PhysicsSimulation R) (x y z : R) : THREE.Vector3 R :=
  let ms := contributing this x y z in
  THREE.mkVector3 R
    (Rsum (map (fun mass => pull this x y z mass * x) ms) - omega this ^ 2 * x)
    (Rsum (map (fun mass => pull this x y z mass * (y - PointMass.y mass)) ms))
    (Rsum (map (fun mass => pull this x y z mass * z) ms) - omega this ^ 2 * z).

(** One iteration as the specification words it: evaluate the potential at
    the midpoint of the bracket scaled along the direction; move [rMin] up
    to the midpoint when the value is strictly below the target, [rMax]
    down to it otherwise. *)
Definition spec_step (this : PhysicsSimulation R) (dx dy dz targetPotential : R)
           (bracket : R * R) : R * R :=
  let (rMin, rMax) := bracket in
  let mid := (rMin + rMax) / 2 in
  if Rltb (getPotential this (dx * mid) (dy * mid) (dz * mid)) targetPotential
  then (mid, rMax)
  else (rMin, mid).

(** The bracket after [n] iterations from [3.0, 8.0]. *)
Definition spec_bracket (this : PhysicsSimulation R) (dx dy dz targetPotential : R)
           (n : nat) : R * R :=
  Nat.iter n (spec_step this dx dy dz targetPotential) (3, 8).

(** The squared distances from the point at radius [r] on a unit ray to
    the two default masses. *)
Definition lower_sq (dy r : R) : R := r * r + 3 * r * dy + 9 / 4.
Definition upper_sq (dy r : R) : R := r * r - 4 * r * dy + 4.

(** The bracket arithmetic of [bisect] does not depend on the potential
    but through the outcome of the comparison.  [all_brackets n rMin rMax P]
    runs the [n] remaining iterations for both outcomes of every comparison
    and checks [P] on each final bracket. *)
Fixpoint all_brackets {T : Type} `{Number T} (n : nat) (rMin rMax : T)
         (P : T -> T -> bool) : bool :=
  match n with
  | O => P rMin rMax
  | S n' =>
      let rMid := ((rMin + rMax) * lit 5 1)%num in
      all_brackets n' rMid rMax P && all_brackets n' rMin rMid P
  end.

Definition returned_in_bracket (rMin rMax : float) : bool :=
  let r := ((rMin + rMax) * 0.5)%float in
  PrimFloat.leb 3%float r && PrimFloat.leb r 8%float.

Definition final_width (rMin rMax : float) : bool :=
  PrimFloat.eqb (rMax - rMin)%float (5 / 32768)%float.

(** What [solveRadius] returns from the final bracket. *)
Definition returned (rMin rMax : float) : float :=
  ((rMin + rMax) * lit 5 1)%num.

(** At every comparison of every run, whatever is returned after the
    outcome [false] (bracket [rMin, rMid]) is at most [rMid], and whatever
    is returned after the outcome [true] (bracket [rMid, rMax]) is at least
    [rMid]; and nothing returned is NaN. *)
Fixpoint ordered_outcomes (n : nat) (rMin rMax : float) : bool :=
  match n with
  | O => PrimFloat.leb (returned rMin rMax) (returned rMin rMax)
  | S n' =>
      let rMid := ((rMin + rMax) * lit 5 1)%num in
      all_brackets n' rMin rMid (fun a b => PrimFloat.leb (returned a b) rMid)
      && all_brackets n' rMid rMax (fun a b => PrimFloat.leb rMid (returned a b))
      && ordered_outcomes n' rMid rMax
      && ordered_outcomes n' rMin rMid
  end.

(** ** The callers: main.js *)

Section Callers.
Context {T : Type} `{Number T}.
Local Open Scope num_scope.

(** *** calculate20Masses *)

Definition poleCount : nat := 20.

(** The body of the loop for the index [i]: the entry pushed on
    [poleMasses]. *)
Definition pole (radius taper : T) (i : nat) : PointMass.t T :=
  let yNormalized :=
    lit (-1) 0 + (lit 2 0 * lit (Z.of_nat i) 0) / lit (Z.of_nat (poleCount - 1)) 0 in
  let y := yNormalized * radius * taper in
  let sliceScale :=
    if lit 0 0 <? y then lit 1 0 - (taper * (y / radius) * lit 6 1) else lit 1 0 in
  let sliceRadius := radius * sliceScale in
  let mass := sliceRadius * sliceRadius in
  PointMass.mk T y mass.

(** The [for] loop, [n] iterations still to run, at the index [i]. *)
Fixpoint pole_loop (radius taper : T) (n i : nat) (poleMasses : list (PointMass.t T))
  : list (PointMass.t T) :=
  match n with
  | O => poleMasses
  | S n' => pole_loop radius taper n' (S i) (poleMasses ++ [pole radius taper i])
  end.

Definition calculate20Masses (radius taper : T) : list (PointMass.t T) :=
  let poleMasses := pole_loop radius taper poleCount 0 [] in
  let totalM := fold_left (fun acc p => acc + PointMass.m p) poleMasses (lit 0 0) in
  let targetScale := lit 10 0 / totalM in
  map (fun p => PointMass.mk T (PointMass.y p) (PointMass.m p * targetScale))
      poleMasses.

(** *** createEggGeometry *)

(** The body of the loop over the vertices: the three numbers handed to
    [setXYZ] for the vertex [(x, y, z)] read.  The position buffer keeps
    them in single precision; that rounding is not part of this
    definition, which is read over the reals only, where the store is
    exact. *)
Definition taper_vertex (radius taper : T) (vertex : THREE.Vector3 T)
  : THREE.Vector3 T :=
  let y := THREE.y vertex in
  let scale :=
    if lit 0 0 <? y then lit 1 0 - (taper * (y / radius) * lit 6 1) else lit 1 0 in
  THREE.mkVector3 T (THREE.x vertex * scale) (THREE.y vertex) (THREE.z vertex * scale).

(** *** updateWaterSurface *)

(** The first loop, on the directions [p] after [p.normalize()]: the
    radius [r] solved for each vertex, in order, and the flag [hasDisk].
    The list [radii] holds the values [r] themselves, which scale the
    vertices and are tested against 6; the source keeps them, rounded to
    single precision, in [radiusList] for the second loop. *)
Fixpoint radius_loop (sim : PhysicsSimulation T) (waterPotential : T)
         (directions : list (THREE.Vector3 T)) (radii : list T) (hasDisk : bool)
  : list T * bool :=
  match directions with
  | [] => (radii, hasDisk)
  | p :: rest =>
      let r := solveRadius sim (THREE.x p) (THREE.y p) (THREE.z p) waterPotential in
      radius_loop sim waterPotential rest (radii ++ [r])
                  (if lit 6 0 <? r then true else hasDisk)
  end.

End Callers.

(** The second loop of [updateWaterSurface], over the reals, for any
    contents of [radiusList].  A read outside an array is [undefined],
    arithmetic on it gives NaN, and both are [None] here. *)

Definition gapThreshold : R := 2.

Definition max_diff (rA rB rC : option R) : option R :=
  match rA, rB, rC with
  | Some a, Some b, Some c =>
      Some (Rmax (Rmax (Rabs (a - b)) (Rabs (a - c))) (Rabs (b - c)))
  | _, _, _ => None
  end.

(** [maxDiff > gapThreshold]; false on NaN. *)
Definition exceeds (maxDiff : option R) : bool :=
  match maxDiff with
  | Some d => Rltb gapThreshold d
  | None => false
  end.

(** [indices[i] = v], a typed array: a write outside it, or of
    [undefined], changes nothing that is read back. *)
Fixpoint write (indices : list nat) (i : nat) (v : option nat) : list nat :=
  match indices, i, v with
  | [], _, _ => []
  | _ :: rest, O, Some n => n :: rest
  | _ :: rest, O, None => O :: rest
  | k :: rest, S i', _ => k :: write rest i' v
  end.

Definition radius_at (radiusList : list R) (k : option nat) : option R :=
  match k with
  | Some n => nth_error radiusList n
  | None => None
  end.

(** The loop [for (i = 0; i < originalIndices.length; i += 3)], with [n]
    an upper bound on the iterations still to run. *)
Fixpoint cut_loop (originalIndices : list nat) (radiusList : list R)
         (n i : nat) (indices : list nat) : list nat :=
  match n with
  | O => indices
  | S n' =>
      if (i <? length originalIndices)%nat then
        let a := nth_error originalIndices i in
        let b := nth_error originalIndices (i + 1) in
        let c := nth_error originalIndices (i + 2) in
        let rA := radius_at radiusList a in
        let rB := radius_at radiusList b in
        let rC := radius_at radiusList c in
        let maxDiff := max_diff rA rB rC in
        let indices' :=
          if exceeds maxDiff
          then write (write (write indices i (Some O)) (i + 1) (Some O)) (i + 2) (Some O)
          else write (write (write indices i a) (i + 1) b) (i + 2) c in
        cut_loop originalIndices radiusList n' (i + 3) indices'
      else indices
  end.

Definition cut_mesh (originalIndices : list nat) (radiusList : list R)
           (indices : list nat) : list nat :=
  cut_loop originalIndices radiusList (length originalIndices) 0 indices.

(** ** Vocabulary for the callers and the solver *)

(** The index buffer of a [SphereGeometry] lists triangles, three vertex
    indices each. *)
Definition flatten (triangles : list (nat * nat * nat)) : list nat :=
  flat_map (fun t : nat * nat * nat => let '(a, b, c) := t in [a; b; c]) triangles.

(** What one iteration leaves in the three slots of its triangle. *)
Definition cut_triangle (radiusList : list R) (t : nat * nat * nat) : list nat :=
  let '(a, b, c) := t in
  if exceeds (max_diff (nth_error radiusList a) (nth_error radiusList b)
                       (nth_error radiusList c))
  then [O; O; O] else [a; b; c].

(** The height of the pole [i] before scaling by radius and taper. *)
Definition yNormalized (i : nat) : R := -1 + 2 * INR i / 19.

(** The factor by which the slice of the pole [i] is narrowed. *)
Definition sliceScale (radius taper : R) (i : nat) : R :=
  if Rltb 0 (yNormalized i * radius * taper)
  then 1 - taper * (yNormalized i * radius * taper / radius) * (6 / 10)
  else 1.

(** The masses before normalisation. *)
Definition raw_masses (radius taper : R) : list R :=
  map (fun i => PointMass.m (pole radius taper i)) (seq 0 20).

Section BracketVocabulary.
Context {T : Type} `{Number T}.

(** The comparison of an iteration, at the radius [r]. *)
Definition below (this : PhysicsSimulation T) (dx dy dz targetPotential r : T) : bool :=
  (getPotential this (dx * r) (dy * r) (dz * r) <? targetPotential)%num.

(** The bracket when every comparison comes out the same way. *)
Fixpoint all_false (n : nat) (rMin rMax : T) : T * T :=
  match n with
  | O => (rMin, rMax)
  | S n' => all_false n' rMin ((rMin + rMax) * lit 5 1)%num
  end.

Fixpoint all_true (n : nat) (rMin rMax : T) : T * T :=
  match n with
  | O => (rMin, rMax)
  | S n' => all_true n' ((rMin + rMax) * lit 5 1)%num rMax
  end.

(** The radii at which the run compares when every comparison comes out
    [false], and when every comparison comes out [true]. *)
Fixpoint false_path (n : nat) (rMin rMax : T) : list T :=
  match n with
  | O => []
  | S n' => let rMid := ((rMin + rMax) * lit 5 1)%num in
            rMid :: false_path n' rMin rMid
  end.

Fixpoint true_path (n : nat) (rMin rMax : T) : list T :=
  match n with
  | O => []
  | S n' => let rMid := ((rMin + rMax) * lit 5 1)%num in
            rMid :: true_path n' rMid rMax
  end.

End BracketVocabulary.

(** The returned midpoint stays off the ends of the bracket. *)
Definition returned_off_the_ends (rMin rMax : float) : bool :=
  PrimFloat.leb 3.0000762939453125%float (returned rMin rMax)
  && PrimFloat.leb (returned rMin rMax) 7.9999237060546875%float.

(** The squared distance from the point at radius [r] on a unit ray to a
    mass at the height [ym]. *)
Definition ray_sq (dy ym r : R) : R := r * r - 2 * r * dy * ym + ym * ym.

(** The potential away from the singularities. *)
Definition closed_form (this : PhysicsSimulation R) (x y z : R) : R :=
  - Rsum (map (fun mass => G this * PointMass.m mass / distance x y z mass)
              (masses this))
  - 0.5 * omega this ^ 2 * (x ^ 2 + z ^ 2).

(** ** Lemmas on the arithmetic *)

Lemma Rltb_true_iff (a b : R) : Rltb a b = true <-> a < b.
Proof.
  unfold Rltb. destruct (Rlt_dec a b); split; intros; auto; discriminate.
Qed.

Lemma Rltb_false_iff (a b : R) : Rltb a b = false <-> b <= a.
Proof.
  unfold Rltb. destruct (Rlt_dec a b); split; intros; auto; try discriminate; lra.
Qed.

Lemma lit_R_0 (n : Z) : lit (T:=R) n 0 = IZR n.
Proof. cbn. field. Qed.

Lemma lit_R_1 (n : Z) : lit (T:=R) n 1 = IZR n / 10.
Proof. reflexivity. Qed.

Ltac real_arith :=
  rewrite ?lit_R_0, ?lit_R_1 in *;
  cbn [add sub mul div sqrt ltb RNumber] in *.

(** Evaluates [binary64_exact] on the literals of the goal. *)
Ltac exact_binary64 :=
  unfold binary64_exact;
  repeat match goal with
         | |- context [Prim2SF ?f] =>
             let s := eval vm_compute in (Prim2SF f) in
             change (Prim2SF f) with s
         end;
  cbv iota beta;
  repeat match goal with
         | |- context [Z.leb 0 ?e] =>
             let b := eval vm_compute in (Z.leb 0 e) in
             change (Z.leb 0 e) with b
         end;
  cbv iota;
  repeat match goal with
         | |- context [Z.pow 2 ?e] =>
             let v := eval vm_compute in (Z.pow 2 e) in
             change (Z.pow 2 e) with v
         end.

Lemma binary64_exact_0 : binary64_exact 0%float = 0.
Proof. exact_binary64. reflexivity. Qed.

Lemma binary64_exact_1 : binary64_exact 1%float = 1.
Proof. exact_binary64. lra. Qed.

Lemma Rsum_cons (a : R) (l : list R) : Rsum (a :: l) = a + Rsum l.
Proof. reflexivity. Qed.

Lemma potential_loop_far (this : PhysicsSimulation R) (x y z : R)
      (ms : list (PointMass.t R)) (potential : R) :
  Forall (far x y z) ms ->
  potential_loop this x y z ms potential =
  Done (potential
        - Rsum (map (fun mass => G this * PointMass.m mass / distance x y z mass) ms)).
Proof.
  intros Hfar. revert potential.
  induction Hfar as [|mass rest Hm _ IH]; intros potential;
    cbn [potential_loop map].
  - f_equal. unfold Rsum; simpl. lra.
  - real_arith. fold (distance x y z mass).
    destruct (Rltb (distance x y z mass) (1 / 10)) eqn:E.
    + apply Rltb_true_iff in E. unfold far in Hm. lra.
    + rewrite IH, Rsum_cons. f_equal. lra.
Qed.

Lemma potential_loop_near (this : PhysicsSimulation R) (x y z : R)
      (ms : list (PointMass.t R)) (potential : R) :
  Exists (near x y z) ms ->
  potential_loop this x y z ms potential = Return (-10000).
Proof.
  intros Hnear. revert potential.
  induction Hnear as [mass rest Hm | mass rest _ IH]; intros potential;
    cbn [potential_loop]; real_arith; fold (distance x y z mass).
  - destruct (Rltb (distance x y z mass) (1 / 10)) eqn:E; [reflexivity|].
    apply Rltb_false_iff in E. unfold near in Hm. lra.
  - destruct (Rltb (distance x y z mass) (1 / 10)); [reflexivity | apply IH].
Qed.

Lemma sqrt_sq_axis (r : R) : 0 <= r -> R_sqrt.sqrt (r * r + (0 - 0) * (0 - 0) + 0 * 0) = r.
Proof.
  intros Hr. replace (r * r + (0 - 0) * (0 - 0) + 0 * 0) with (r * r) by ring.
  now apply sqrt_square.
Qed.

Lemma getPotential_far (this : PhysicsSimulation R) (x y z : R) :
  Forall (far x y z) (masses this) ->
  getPotential this x y z =
  - Rsum (map (fun mass => G this * PointMass.m mass / distance x y z mass)
              (masses this))
  - 0.5 * omega this ^ 2 * (x ^ 2 + z ^ 2).
Proof.
  intros Hfar. unfold getPotential.
  rewrite (potential_loop_far this x y z (masses this) _ Hfar).
  real_arith. lra.
Qed.

(** *** The loops when no test fires, over any carrier *)

Section Regular.
Context {T : Type} `{Number T}.
Local Open Scope num_scope.

Lemma potential_loop_regular (this : PhysicsSimulation T) (x y z : T)
      (ms : list (PointMass.t T)) (potential : T) :
  forallb (outside_singularity x y z) ms = true ->
  potential_loop this x y z ms potential
  = Done (fold_left
            (fun potential mass =>
               potential
               - (G this * PointMass.m mass)
                 / sqrt (x * x + (y - PointMass.y mass) * (y - PointMass.y mass) + z * z))
            ms potential).
Proof.
  revert potential. induction ms as [|mass rest IH]; intros potential Hall;
    cbn [forallb potential_loop fold_left] in *; [reflexivity|].
  apply andb_true_iff in Hall as [Hm Hrest].
  unfold outside_singularity, within_singularity in Hm; cbv zeta in Hm.
  apply negb_true_iff in Hm. rewrite Hm. now apply IH.
Qed.

Lemma gradient_loop_fold (this : PhysicsSimulation T) (x y z : T)
      (ms : list (PointMass.t T)) (g : T * T * T) :
  gradient_loop this x y z ms g
  = fold_left (gradient_step this x y z) (filter (outside_singularity x y z) ms) g.
Proof.
  revert g. induction ms as [|mass rest IH]; intros [[gx gy] gz]; [reflexivity|].
  cbn [gradient_loop filter].
  unfold outside_singularity at 1, within_singularity at 1; cbv zeta.
  destruct (ltb _ (lit 1 1)) eqn:E; cbn [negb]; [apply IH|].
  cbn [fold_left]. rewrite IH. reflexivity.
Qed.

End Regular.

(** C1, amended.  Over the reals, outside the singularity radius of every
    mass the potential is the closed form
    [-Σ G·m_i/dist_i - 0.5·omega²·(x²+z²)], and for a single mass at the
    origin without rotation it is [-G·m/r] at [(r, 0, 0)] for every [r]
    outside the singularity radius.  In binary64, whenever the test
    [dist < 0.1] of the code fails for every mass, the result is the same
    expression evaluated in double arithmetic, in the order of the loop. *)
Theorem getPotential_closed_form :
  (forall (this : PhysicsSimulation R) (x y z : R),
      Forall (fun mass => 0.1 <= distance x y z mass) (masses this) ->
      getPotential this x y z =
      - Rsum (map (fun mass => G this * PointMass.m mass / distance x y z mass)
                  (masses this))
      - 0.5 * omega this ^ 2 * (x ^ 2 + z ^ 2))
  /\
  (forall (G m r : R),
      0.1 <= r ->
      getPotential {| masses := [PointMass.mk R 0 m]; G := G; omega := 0 |} r 0 0 =
      - (G * m / r))
  /\
  (forall (this : PhysicsSimulation float) (x y z : float),
      forallb (outside_singularity x y z) (masses this) = true ->
      getPotential this x y z
      = (fold_left
           (fun potential mass =>
              potential
              - G this * PointMass.m mass
                / PrimFloat.sqrt (x * x + (y - PointMass.y mass) * (y - PointMass.y mass)
                                  + z * z))
           (masses this) 0
         - 0.5 * omega this * omega this * (x * x + z * z))%float).
Proof.
  pose proof getPotential_far as Hgen.
  split; [exact Hgen|]. split.
  - intros G0 m0 r Hr.
    rewrite Hgen.
    + cbn [masses G omega map PointMass.m PointMass.y]. unfold distance.
      cbn [PointMass.y]. rewrite sqrt_sq_axis by lra. rewrite Rsum_cons.
      unfold Rsum; simpl. lra.
    + cbn [masses]. constructor; [|constructor]. unfold far, distance.
      cbn [PointMass.y]. rewrite sqrt_sq_axis by lra. exact Hr.
  - intros this x y z Hout. unfold getPotential.
    rewrite (potential_loop_regular this x y z (masses this) _ Hout).
    reflexivity.
Qed.

Lemma sqrt_sq_vertical (y c : R) :
  0 <= y - c -> R_sqrt.sqrt (0 * 0 + (y - c) * (y - c) + 0 * 0) = y - c.
Proof.
  intros Hr. replace (0 * 0 + (y - c) * (y - c) + 0 * 0) with ((y - c) * (y - c)) by ring.
  now apply sqrt_square.
Qed.

Lemma getPotential_closed_form_witness :
  (Forall (fun mass => 0.1 <= distance 0 4 0 mass) (masses (T:=R) constructor)
   /\ getPotential (T:=R) constructor 0 4 0 = - (19 / 11))
  /\
  (0.1 <= 4
   /\ getPotential {| masses := [PointMass.mk R 0 8]; G := 1; omega := 0 |} 4 0 0
      = - (1 * 8 / 4))
  /\
  (forallb (outside_singularity 0%float 4%float 0%float) (masses (T:=float) constructor)
   = true
   /\ getPotential (T:=float) constructor 0%float 4%float 0%float
      = (-0x1.ba2e8ba2e8ba3p+0)%float).
Proof.
  destruct getPotential_closed_form as (Hgen & Haxis & Hbinary).
  assert (Hfar : Forall (fun mass => 0.1 <= distance 0 4 0 mass)
                        (masses (T:=R) constructor)).
  { unfold constructor; cbn [masses].
    apply Forall_cons; [|apply Forall_cons; [|apply Forall_nil]];
      unfold distance; cbn [PointMass.y]; real_arith;
      rewrite sqrt_sq_vertical by lra; lra. }
  split; [split|split; [split|split]].
  - exact Hfar.
  - rewrite (Hgen constructor 0 4 0 Hfar).
    unfold constructor; cbn [masses G omega map PointMass.m PointMass.y].
    unfold distance; cbn [PointMass.y]; real_arith.
    rewrite !sqrt_sq_vertical by lra.
    rewrite !Rsum_cons. unfold Rsum; simpl. field.
  - lra.
  - apply Haxis. lra.
  - vm_compute. reflexivity.
  - rewrite Hbinary by (vm_compute; reflexivity). vm_compute. reflexivity.
Defined.

(** C1 as stated fails in binary64.  One mass 8 at the origin, no
    rotation: the point below is at a distance of at least 0.1 from the
    mass, its coordinates taken exactly, but the distance the code computes
    is below the double 0.1, and the result is the sentinel -10000, not
    [-G·m/dist]. *)
Lemma sentinel_outside_singularity :
  let x := 0x1.7d1a3848bb412p-5%float in
  let z := 0x1.6a93d2c1c8f87p-4%float in
  0.1 <= distance (binary64_exact x) 0 (binary64_exact z) (PointMass.mk R 0 8)
  /\ getPotential {| masses := [PointMass.mk float 0%float 8%float];
                     G := 1%float; omega := 0%float |} x 0%float z
     = (-10000)%float.
Proof.
  intros x z. split; [|vm_compute; reflexivity].
  unfold distance; cbn [PointMass.y].
  replace 0.1 with (R_sqrt.sqrt (0.1 * 0.1)) at 1 by (apply sqrt_square; lra).
  apply sqrt_le_1_alt.
  subst x z. exact_binary64. lra.
Qed.

Lemma farb_true_iff (x y z : R) (mass : PointMass.t R) :
  farb x y z mass = true <-> far x y z mass.
Proof.
  unfold farb, far. rewrite negb_true_iff, Rltb_false_iff. lra.
Qed.

Lemma squares_nonneg (a b c : R) : 0 <= a * a + b * b + c * c.
Proof. nra. Qed.

Lemma cube_distance (x y z : R) (mass : PointMass.t R) :
  (x * x + (y - PointMass.y mass) * (y - PointMass.y mass) + z * z) * distance x y z mass
  = distance x y z mass ^ 3.
Proof.
  unfold distance.
  set (r2 := x * x + (y - PointMass.y mass) * (y - PointMass.y mass) + z * z).
  assert (Hr2 : 0 <= r2) by apply squares_nonneg.
  pose proof (sqrt_sqrt r2 Hr2) as Hs. simpl. rewrite <- Hs at 1. ring.
Qed.

Lemma gradient_loop_sum (this : PhysicsSimulation R) (x y z : R)
      (ms : list (PointMass.t R)) (gx gy gz : R) :
  gradient_loop this x y z ms (gx, gy, gz) =
  (gx + Rsum (map (fun mass => pull this x y z mass * x) (filter (farb x y z) ms)),
   gy + Rsum (map (fun mass => pull this x y z mass * (y - PointMass.y mass))
                  (filter (farb x y z) ms)),
   gz + Rsum (map (fun mass => pull this x y z mass * z) (filter (farb x y z) ms))).
Proof.
  revert gx gy gz. induction ms as [|mass rest IH]; intros gx gy gz;
    cbn [gradient_loop filter map].
  - unfold Rsum; simpl. repeat f_equal; lra.
  - real_arith. fold (distance x y z mass).
    assert (Ht : Rltb (distance x y z mass) (1 / 10) = negb (farb x y z mass)).
    { unfold farb. rewrite negb_involutive. f_equal; lra. }
    rewrite Ht. destruct (farb x y z mass); cbn [negb map].
    + rewrite IH, !Rsum_cons, cube_distance. unfold pull.
      apply f_equal2; [apply f_equal2|]; lra.
    + apply IH.
Qed.

Lemma getGradient_formula (this : PhysicsSimulation R) (x y z : R) :
  getGradient this x y z = gradient_formula this x y z.
Proof.
  unfold getGradient, gradient_formula, contributing.
  rewrite gradient_loop_sum. real_arith. f_equal; lra.
Qed.

(** *** The singularity, over any carrier *)

Section Singularity.
Context {T : Type} `{Number T}.





End Singularity.

Lemma within_singularity_real (x y z : R) (mass : PointMass.t R) :
  within_singularity x y z mass = true <-> distance x y z mass < 0.1.
Proof.
  unfold within_singularity; cbv zeta. real_arith. fold (distance x y z mass).
  rewrite Rltb_true_iff. lra.
Qed.




Lemma binary64_getGradient_fold (this : PhysicsSimulation float) (x y z : float) :
  getGradient this x y z
  = let '(gx, gy, gz) :=
      fold_left (gradient_step this x y z)
                (filter (outside_singularity x y z) (masses this))
                (0%float, 0%float, 0%float) in
    THREE.mkVector3 float (gx - omega this * omega this * x)%float gy
                    (gz - omega this * omega this * z)%float.
Proof.
  unfold getGradient. rewrite gradient_loop_fold. reflexivity.
Qed.

(** C6, amended.  Over the reals, [getGradient] returns the raw vector
    [Σ_{r_i >= 0.1} (G·m_i / r_i³)·(x, y - m_i.y, z)] with [omega²·x] and
    [omega²·z] subtracted from its x- and z-components; for a single
    positive mass at the origin, a positive [G] and no rotation, its
    x-component at [(x, 0, 0)] is positive for every [x > 0.1].  In
    binary64 it returns the same sum evaluated in double arithmetic, in the
    order of the loop, over the masses for which the test [r < 0.1] of the
    code fails. *)
Theorem getGradient_raw_sum :
  (forall (this : PhysicsSimulation R) (x y z : R),
      getGradient this x y z =
      THREE.mkVector3 R
        (Rsum (map (fun mass => pull this x y z mass * x)
                   (filter (farb x y z) (masses this)))
         - omega this ^ 2 * x)
        (Rsum (map (fun mass => pull this x y z mass * (y - PointMass.y mass))
                   (filter (farb x y z) (masses this))))
        (Rsum (map (fun mass => pull this x y z mass * z)
                   (filter (farb x y z) (masses this)))
         - omega this ^ 2 * z))
  /\
  (forall (G m x : R),
      0 < G -> 0 < m -> 0.1 < x ->
      0 < THREE.x
            (getGradient {| masses := [PointMass.mk R 0 m]; G := G; omega := 0 |}
                         x 0 0))
  /\
  (forall (this : PhysicsSimulation float) (x y z : float),
      getGradient this x y z
      = let '(gx, gy, gz) :=
          fold_left (gradient_step this x y z)
                    (filter (outside_singularity x y z) (masses this))
                    (0%float, 0%float, 0%float) in
        THREE.mkVector3 float (gx - omega this * omega this * x)%float gy
                        (gz - omega this * omega this * z)%float).
Proof.
  split; [intros; apply getGradient_formula|]. split.
  - intros G0 m0 x HG Hm Hx.
    rewrite getGradient_formula. unfold gradient_formula, contributing.
    cbn [masses omega filter THREE.x].
    assert (Hd : distance x 0 0 (PointMass.mk R 0 m0) = x).
    { unfold distance; cbn [PointMass.y]. apply sqrt_sq_axis. lra. }
    assert (Hfar : farb x 0 0 (PointMass.mk R 0 m0) = true).
    { apply farb_true_iff. unfold far. rewrite Hd. lra. }
    rewrite Hfar. cbn [map]. rewrite Rsum_cons. unfold pull. rewrite Hd.
    cbn [G PointMass.m]. unfold Rsum; cbn [fold_right].
    assert (Hpos : 0 < G0 * m0 / x ^ 3 * x).
    { apply Rmult_lt_0_compat; [|lra].
      apply Rdiv_lt_0_compat; [nra|]. apply pow_lt. lra. }
    lra.
  - intros this x y z. apply binary64_getGradient_fold.
Qed.

Lemma getGradient_raw_sum_witness :
  ((0 < 1 /\ 0 < 8 /\ 0.1 < 4)
   /\ 0 < THREE.x
           (getGradient {| masses := [PointMass.mk R 0 8]; G := 1; omega := 0 |}
                        4 0 0))
  /\ getGradient {| masses := [PointMass.mk float 0%float 8%float];
                    G := 1%float; omega := 0%float |} 4%float 0%float 0%float
     = THREE.mkVector3 float 0.5%float 0%float 0%float.
Proof.
  split; [split; [lra|]|].
  - apply (proj1 (proj2 getGradient_raw_sum) 1 8 4); lra.
  - rewrite (proj2 (proj2 getGradient_raw_sum)). vm_compute. reflexivity.
Defined.

(** C6 as stated fails.  In binary64, for one mass 8 at the origin,
    [G = 1] and no rotation: at [x = 2^342], which is above 0.1, [r³]
    overflows and the x-component is 0, not positive; and at the second
    point, nearer than 0.1 to the mass, its coordinates taken exactly, the
    computed [r] is not below the double 0.1 and the mass is not skipped.
    Over the reals the x-component is 0 when [G = 0], on which the claim
    puts no condition. *)
Lemma gradient_departs_in_binary64 :
  (let x := 0x1p+342%float in
   PrimFloat.ltb 0x1.999999999999ap-4%float x = true
   /\ THREE.x (getGradient {| masses := [PointMass.mk float 0%float 8%float];
                              G := 1%float; omega := 0%float |} x 0%float 0%float)
      = 0%float)
  /\
  (let x := 0x1.61e44f134b11fp-4%float in
   let z := 0x1.9c782441fd803p-5%float in
   distance (binary64_exact x) 0 (binary64_exact z) (PointMass.mk R 0 8) < 0.1
   /\ PrimFloat.ltb 690%float
        (THREE.x (getGradient {| masses := [PointMass.mk float 0%float 8%float];
                                 G := 1%float; omega := 0%float |} x 0%float z))
      = true)
  /\
  THREE.x (getGradient {| masses := [PointMass.mk R 0 8]; G := 0; omega := 0 |} 4 0 0)
  = 0.
Proof.
  split; [split; vm_compute; reflexivity|]. split.
  - intros x z. split; [|vm_compute; reflexivity].
    unfold distance; cbn [PointMass.y].
    replace 0.1 with (R_sqrt.sqrt (0.1 * 0.1)) at 1 by (apply sqrt_square; lra).
    apply sqrt_lt_1_alt. subst x z. exact_binary64. lra.
  - rewrite getGradient_formula. unfold gradient_formula, contributing, pull.
    cbn [masses G omega THREE.x filter PointMass.m].
    destruct (farb 4 0 0 _); cbn [map]; rewrite ?Rsum_cons; unfold Rsum; simpl; lra.
Qed.

(** ** The bisection *)

Section Bisection.
Variable this : PhysicsSimulation R.
Variables dx dy dz : R.

Lemma bisect_S (targetPotential : R) (n : nat) (rMin rMax : R) :
  bisect this dx dy dz targetPotential (S n) rMin rMax =
  bisect this dx dy dz targetPotential n
         (fst (spec_step this dx dy dz targetPotential (rMin, rMax)))
         (snd (spec_step this dx dy dz targetPotential (rMin, rMax))).
Proof.
  cbn [bisect spec_step]. real_arith.
  replace ((rMin + rMax) * (5 / 10)) with ((rMin + rMax) / 2) by lra.
  now destruct (Rltb _ targetPotential).
Qed.

Lemma bisect_iter (targetPotential : R) (n : nat) (rMin rMax : R) :
  bisect this dx dy dz targetPotential n rMin rMax =
  Nat.iter n (spec_step this dx dy dz targetPotential) (rMin, rMax).
Proof.
  revert rMin rMax. induction n as [|n IH]; intros rMin rMax; [reflexivity|].
  rewrite bisect_S, IH, <- surjective_pairing.
  symmetry. apply Nat.iter_succ_r.
Qed.

Lemma spec_step_bounds (targetPotential rMin rMax : R) :
  rMin <= rMax ->
  let b := spec_step this dx dy dz targetPotential (rMin, rMax) in
  rMin <= fst b /\ fst b <= snd b /\ snd b <= rMax
  /\ snd b - fst b = (rMax - rMin) / 2.
Proof.
  intros Hle. cbn [spec_step].
  destruct (Rltb _ targetPotential); cbn [fst snd]; lra.
Qed.

Lemma bisect_bounds (targetPotential : R) (n : nat) (rMin rMax : R) :
  rMin <= rMax ->
  let b := bisect this dx dy dz targetPotential n rMin rMax in
  rMin <= fst b /\ fst b <= snd b /\ snd b <= rMax
  /\ snd b - fst b = (rMax - rMin) / 2 ^ n.
Proof.
  revert rMin rMax. induction n as [|n IH]; intros rMin rMax Hle.
  - cbn. lra.
  - rewrite bisect_S.
    destruct (spec_step_bounds targetPotential rMin rMax Hle) as (H1 & H2 & H3 & H4).
    destruct (IH _ _ H2) as (I1 & I2 & I3 & I4).
    cbv zeta. repeat split; try lra.
    rewrite I4, H4. cbn [pow]. field. apply pow_nonzero. lra.
Qed.

End Bisection.

Lemma solveRadius_midpoint (this : PhysicsSimulation R) (dx dy dz targetPotential : R) :
  solveRadius this dx dy dz targetPotential =
  (fst (bisect this dx dy dz targetPotential 15 3 8)
   + snd (bisect this dx dy dz targetPotential 15 3 8)) / 2.
Proof.
  unfold solveRadius, iterations. rewrite !lit_R_0.
  destruct (bisect this dx dy dz targetPotential 15 3 8) as [rMin rMax].
  real_arith. cbn [fst snd]. lra.
Qed.

Lemma real_solveRadius_fifteen_bisections
      (this : PhysicsSimulation R) (dx dy dz targetPotential : R) :
  let final := spec_bracket this dx dy dz targetPotential 15 in
  solveRadius this dx dy dz targetPotential = (fst final + snd final) / 2
  /\ snd final - fst final = (8 - 3) / 2 ^ 15.
Proof.
  cbv zeta. unfold spec_bracket.
  rewrite solveRadius_midpoint, <- bisect_iter. split; [reflexivity|].
  apply (bisect_bounds this dx dy dz targetPotential 15 3 8). lra.
Qed.

(** *** Binary64: every outcome of the comparisons *)

Lemma all_brackets_sound {T : Type} `{Number T} (P : T -> T -> bool)
      (this : PhysicsSimulation T) (dx dy dz targetPotential : T)
      (n : nat) (rMin rMax : T) :
  all_brackets n rMin rMax P = true ->
  P (fst (bisect this dx dy dz targetPotential n rMin rMax))
    (snd (bisect this dx dy dz targetPotential n rMin rMax)) = true.
Proof.
  revert rMin rMax. induction n as [|n IH]; intros rMin rMax Hall.
  - exact Hall.
  - cbn [all_brackets] in Hall. apply andb_true_iff in Hall as [Hup Hdown].
    cbn [bisect]. destruct (ltb _ targetPotential); now apply IH.
Qed.

Lemma binary64_brackets_checked :
  all_brackets (T:=float) 15 3%float 8%float returned_in_bracket = true
  /\ all_brackets (T:=float) 15 3%float 8%float final_width = true.
Proof. split; vm_compute; reflexivity. Qed.

Lemma binary64_solveRadius_in_bracket
      (this : PhysicsSimulation float) (dx dy dz targetPotential : float) :
  PrimFloat.leb 3%float (solveRadius this dx dy dz targetPotential) = true
  /\ PrimFloat.leb (solveRadius this dx dy dz targetPotential) 8%float = true.
Proof.
  pose proof (all_brackets_sound returned_in_bracket this dx dy dz targetPotential
                15 3%float 8%float (proj1 binary64_brackets_checked)) as Hin.
  unfold solveRadius, iterations.
  change (lit (T:=float) 3 0) with 3%float.
  change (lit (T:=float) 8 0) with 8%float.
  change (lit (T:=float) 5 1) with 0.5%float.
  destruct (bisect this dx dy dz targetPotential 15 3%float 8%float) as [rMin rMax].
  cbn [fst snd] in Hin. unfold returned_in_bracket in Hin.
  now apply andb_true_iff in Hin.
Qed.

Lemma binary64_final_bracket_width
      (this : PhysicsSimulation float) (dx dy dz targetPotential : float) :
  let final := bisect this dx dy dz targetPotential iterations 3%float 8%float in
  PrimFloat.eqb (snd final - fst final)%float (5 / 32768)%float = true.
Proof.
  pose proof (all_brackets_sound final_width this dx dy dz targetPotential
                15 3%float 8%float (proj2 binary64_brackets_checked)) as Hw.
  cbv zeta. unfold iterations.
  destruct (bisect this dx dy dz targetPotential 15 3%float 8%float) as [rMin rMax].
  exact Hw.
Qed.

Lemma binary64_solveRadius_returned
      (this : PhysicsSimulation float) (dx dy dz t : float) :
  solveRadius this dx dy dz t
  = returned (fst (bisect this dx dy dz t 15 3%float 8%float))
             (snd (bisect this dx dy dz t 15 3%float 8%float)).
Proof.
  unfold solveRadius, iterations, returned.
  change (lit (T:=float) 3 0) with 3%float.
  change (lit (T:=float) 8 0) with 8%float.
  now destruct (bisect this dx dy dz t 15 3%float 8%float).
Qed.

Section Straddle.
Context {T : Type} `{Number T}.

Lemma bisect_straddles (this : PhysicsSimulation T) (dx dy dz targetPotential : T)
      (n : nat) (rMin rMax : T) :
  below this dx dy dz targetPotential rMin = true ->
  below this dx dy dz targetPotential rMax = false ->
  below this dx dy dz targetPotential
        (fst (bisect this dx dy dz targetPotential n rMin rMax)) = true
  /\ below this dx dy dz targetPotential
           (snd (bisect this dx dy dz targetPotential n rMin rMax)) = false.
Proof.
  revert rMin rMax. induction n as [|n IH]; intros rMin rMax Hlo Hhi; [now split|].
  cbn [bisect].
  destruct (ltb _ targetPotential) eqn:E; apply IH; assumption.
Qed.

End Straddle.

(** C2.  [solveRadius] runs the bisection step exactly 15 times from the
    bracket [3.0, 8.0] and returns the midpoint of the bracket it ends
    with, whose width is [(8.0 - 3.0) / 2^15]: over the reals, where the
    loop is compared with 15 applications of the step as specified, and in
    binary64, where the width of the final bracket is exactly that. *)
Theorem solveRadius_fifteen_bisections :
  (forall (this : PhysicsSimulation R) (dx dy dz targetPotential : R),
      let final := spec_bracket this dx dy dz targetPotential 15 in
      solveRadius this dx dy dz targetPotential = (fst final + snd final) / 2
      /\ snd final - fst final = (8 - 3) / 2 ^ 15)
  /\
  (forall (this : PhysicsSimulation float) (dx dy dz targetPotential : float),
      let final := bisect this dx dy dz targetPotential iterations 3%float 8%float in
      solveRadius this dx dy dz targetPotential
      = ((fst final + snd final) * 0.5)%float
      /\ PrimFloat.eqb (snd final - fst final)%float (5 / 32768)%float = true).
Proof.
  split.
  - exact real_solveRadius_fifteen_bisections.
  - intros this dx dy dz targetPotential final. split.
    + unfold solveRadius. fold final.
      change (lit (T:=float) 3 0) with 3%float.
      change (lit (T:=float) 8 0) with 8%float.
      fold final. now destruct final.
    + apply binary64_final_bracket_width.
Qed.

Lemma real_solveRadius_in_bracket
      (this : PhysicsSimulation R) (dx dy dz targetPotential : R) :
  3 <= solveRadius this dx dy dz targetPotential <= 8.
Proof.
  rewrite solveRadius_midpoint.
  destruct (bisect_bounds this dx dy dz targetPotential 15 3 8) as (H1 & H2 & H3 & _);
    lra.
Qed.

(** C8.  For every configuration, direction and target, [solveRadius]
    returns a value, and the value lies in the initial bracket
    [3.0, 8.0]: over the reals, and in binary64, where the configuration
    and the arguments may also be infinite or NaN. *)
Theorem solveRadius_in_bracket :
  (forall (this : PhysicsSimulation R) (dx dy dz targetPotential : R),
      3 <= solveRadius this dx dy dz targetPotential <= 8)
  /\
  (forall (this : PhysicsSimulation float) (dx dy dz targetPotential : float),
      PrimFloat.leb 3%float (solveRadius this dx dy dz targetPotential) = true
      /\ PrimFloat.leb (solveRadius this dx dy dz targetPotential) 8%float = true).
Proof.
  split.
  - exact real_solveRadius_in_bracket.
  - exact binary64_solveRadius_in_bracket.
Qed.

Lemma bisect_monotone_in_target
      (this : PhysicsSimulation R) (dx dy dz t1 t2 : R) (n : nat) (rMin rMax : R) :
  t1 <= t2 -> rMin <= rMax ->
  fst (bisect this dx dy dz t1 n rMin rMax) <= fst (bisect this dx dy dz t2 n rMin rMax)
  /\ snd (bisect this dx dy dz t1 n rMin rMax) <= snd (bisect this dx dy dz t2 n rMin rMax).
Proof.
  intros Ht. revert rMin rMax. induction n as [|n IH]; intros rMin rMax Hle.
  - cbn. lra.
  - rewrite !bisect_S. cbn [spec_step].
    set (mid := (rMin + rMax) / 2).
    set (val := getPotential this (dx * mid) (dy * mid) (dz * mid)).
    assert (Hmid : rMin <= mid <= rMax) by (unfold mid; lra).
    destruct (Rltb val t1) eqn:E1; destruct (Rltb val t2) eqn:E2; cbn [fst snd].
    + apply IH; lra.
    + apply Rltb_true_iff in E1. apply Rltb_false_iff in E2. lra.
    + destruct (bisect_bounds this dx dy dz t1 n rMin mid) as (A1 & A2 & A3 & _); [lra|].
      destruct (bisect_bounds this dx dy dz t2 n mid rMax) as (B1 & B2 & B3 & _); [lra|].
      lra.
    + apply IH; lra.
Qed.

Lemma real_solveRadius_monotone_in_target
      (this : PhysicsSimulation R) (dx dy dz t1 t2 : R) :
  t1 <= t2 ->
  solveRadius this dx dy dz t1 <= solveRadius this dx dy dz t2.
Proof.
  intros Ht. rewrite !solveRadius_midpoint.
  destruct (bisect_monotone_in_target this dx dy dz t1 t2 15 3 8 Ht); lra.
Qed.

(** *** Binary64: the order of the comparisons *)

Lemma compare_cont_Eq (p q : positive) : Pos.compare_cont Eq p q = Pos.compare p q.
Proof. reflexivity. Qed.

Ltac order_cases :=
  repeat match goal with
         | H : context [Z.compare ?a ?b] |- _ => destruct (Z.compare_spec a b); try subst
         | |- context [Z.compare ?a ?b] => destruct (Z.compare_spec a b); try subst
         | H : context [Pos.compare ?a ?b] |- _ => destruct (Pos.compare_spec a b); try subst
         | |- context [Pos.compare ?a ?b] => destruct (Pos.compare_spec a b); try subst
         end.

Lemma SFltb_leb_trans (a b c : spec_float) :
  SFltb a b = true -> SFleb b c = true -> SFltb a c = true.
Proof.
  unfold SFltb, SFleb. intros Hab Hbc.
  destruct a as [sa|sa| |sa ma ea], b as [sb|sb| |sb mb eb], c as [sc|sc| |sc mc ec];
    cbn [SFcompare] in *; try congruence;
    try destruct sa; try destruct sb; try destruct sc; try congruence;
    rewrite ?compare_cont_Eq in *;
    order_cases; cbn [CompOpp] in *; try congruence; try lia.
Qed.

Lemma SFleb_trans (a b c : spec_float) :
  SFleb a b = true -> SFleb b c = true -> SFleb a c = true.
Proof.
  unfold SFleb. intros Hab Hbc.
  destruct a as [sa|sa| |sa ma ea], b as [sb|sb| |sb mb eb], c as [sc|sc| |sc mc ec];
    cbn [SFcompare] in *; try congruence;
    try destruct sa; try destruct sb; try destruct sc; try congruence;
    rewrite ?compare_cont_Eq in *;
    order_cases; cbn [CompOpp] in *; try congruence; try lia.
Qed.

Lemma binary64_ltb_leb_trans (a b c : float) :
  PrimFloat.ltb a b = true -> PrimFloat.leb b c = true -> PrimFloat.ltb a c = true.
Proof. rewrite !FloatAxioms.ltb_spec, FloatAxioms.leb_spec. apply SFltb_leb_trans. Qed.

Lemma binary64_leb_trans (a b c : float) :
  PrimFloat.leb a b = true -> PrimFloat.leb b c = true -> PrimFloat.leb a c = true.
Proof. rewrite !FloatAxioms.leb_spec. apply SFleb_trans. Qed.

Lemma binary64_outcomes_ordered : ordered_outcomes 15 3%float 8%float = true.
Proof. vm_compute. reflexivity. Qed.

Lemma ordered_outcomes_sound
      (this : PhysicsSimulation float) (dx dy dz t1 t2 : float) (n : nat) :
  PrimFloat.leb t1 t2 = true ->
  forall rMin rMax : float,
    ordered_outcomes n rMin rMax = true ->
    PrimFloat.leb
      (returned (fst (bisect this dx dy dz t1 n rMin rMax))
                (snd (bisect this dx dy dz t1 n rMin rMax)))
      (returned (fst (bisect this dx dy dz t2 n rMin rMax))
                (snd (bisect this dx dy dz t2 n rMin rMax))) = true.
Proof.
  intros Ht. induction n as [|n IH]; intros rMin rMax Hord.
  - exact Hord.
  - cbn [ordered_outcomes] in Hord.
    apply andb_true_iff in Hord as [Hord Hdown].
    apply andb_true_iff in Hord as [Hord Hup].
    apply andb_true_iff in Hord as [Hlow Hhigh].
    cbn [bisect].
    set (rMid := ((rMin + rMax) * lit 5 1)%num) in *.
    set (val := getPotential this (dx * rMid)%num (dy * rMid)%num (dz * rMid)%num).
    cbn [ltb FloatNumber].
    destruct (PrimFloat.ltb val t1) eqn:E1; destruct (PrimFloat.ltb val t2) eqn:E2.
    + now apply IH.
    + rewrite (binary64_ltb_leb_trans val t1 t2 E1 Ht) in E2. discriminate.
    + apply binary64_leb_trans with rMid.
      * exact (all_brackets_sound _ this dx dy dz t1 n rMin rMid Hlow).
      * exact (all_brackets_sound _ this dx dy dz t2 n rMid rMax Hhigh).
    + now apply IH.
Qed.

Lemma binary64_solveRadius_monotone_in_target
      (this : PhysicsSimulation float) (dx dy dz t1 t2 : float) :
  PrimFloat.leb t1 t2 = true ->
  PrimFloat.leb (solveRadius this dx dy dz t1) (solveRadius this dx dy dz t2) = true.
Proof.
  intros Ht.
  pose proof (ordered_outcomes_sound this dx dy dz t1 t2 15 Ht 3%float 8%float
                binary64_outcomes_ordered) as Hord.
  unfold solveRadius, iterations.
  change (lit (T:=float) 3 0) with 3%float.
  change (lit (T:=float) 8 0) with 8%float.
  destruct (bisect this dx dy dz t1 15 3%float 8%float) as [rMin1 rMax1].
  destruct (bisect this dx dy dz t2 15 3%float 8%float) as [rMin2 rMax2].
  exact Hord.
Qed.

(** C10.  For a fixed configuration and direction, [solveRadius] is
    non-decreasing in its target potential, whatever the shape of the
    potential along the ray: over the reals, and in binary64. *)
Theorem solveRadius_monotone_in_target :
  (forall (this : PhysicsSimulation R) (dx dy dz t1 t2 : R),
      t1 <= t2 ->
      solveRadius this dx dy dz t1 <= solveRadius this dx dy dz t2)
  /\
  (forall (this : PhysicsSimulation float) (dx dy dz t1 t2 : float),
      PrimFloat.leb t1 t2 = true ->
      PrimFloat.leb (solveRadius this dx dy dz t1) (solveRadius this dx dy dz t2)
      = true).
Proof.
  split.
  - exact real_solveRadius_monotone_in_target.
  - exact binary64_solveRadius_monotone_in_target.
Qed.

Lemma solveRadius_monotone_in_target_witness :
  (-2 <= -1
   /\ solveRadius (T:=R) constructor 1 0 0 (-2)
      <= solveRadius (T:=R) constructor 1 0 0 (-1))
  /\
  (PrimFloat.leb (-2)%float (-1)%float = true
   /\ PrimFloat.leb
        (solveRadius (T:=float) constructor 1%float 0%float 0%float (-2)%float)
        (solveRadius (T:=float) constructor 1%float 0%float 0%float (-1)%float)
      = true).
Proof.
  destruct solveRadius_monotone_in_target as [Hreal Hbinary].
  split; split.
  - lra.
  - apply Hreal. lra.
  - reflexivity.
  - apply Hbinary. reflexivity.
Defined.

(** ** Symmetry about the vertical axis *)

Lemma potential_loop_axial (this : PhysicsSimulation R) (x y z x' z' : R)
      (ms : list (PointMass.t R)) (potential : R) :
  x' * x' + z' * z' = x * x + z * z ->
  potential_loop this x' y z' ms potential = potential_loop this x y z ms potential.
Proof.
  intros Hxz. revert potential.
  induction ms as [|mass rest IH]; intros potential; cbn [potential_loop];
    [reflexivity|].
  real_arith.
  replace (x' * x' + (y - PointMass.y mass) * (y - PointMass.y mass) + z' * z')
    with (x * x + (y - PointMass.y mass) * (y - PointMass.y mass) + z * z) by lra.
  now rewrite IH.
Qed.

Lemma rotation_preserves_radius (x z theta : R) :
  (x * cos theta - z * sin theta) * (x * cos theta - z * sin theta)
  + (x * sin theta + z * cos theta) * (x * sin theta + z * cos theta)
  = x * x + z * z.
Proof.
  pose proof (sin2_cos2 theta) as Hsc. unfold Rsqr in Hsc.
  replace (x * x + z * z)
    with ((x * x + z * z) * (sin theta * sin theta + cos theta * cos theta))
    by (rewrite Hsc; ring).
  ring.
Qed.

(** Squares do not see the sign. *)
Lemma binary64_square_opp (x : float) : (- x * - x = x * x)%float.
Proof.
  rewrite <- (FloatAxioms.SF2Prim_Prim2SF (- x * - x)%float),
          <- (FloatAxioms.SF2Prim_Prim2SF (x * x)%float).
  f_equal. rewrite !FloatAxioms.mul_spec, FloatAxioms.opp_spec.
  destruct (Prim2SF x) as [[] | [] | | [] m e]; reflexivity.
Qed.

Lemma binary64_potential_loop_mirror (this : PhysicsSimulation float)
      (x y z x' z' : float) (ms : list (PointMass.t float)) (potential : float) :
  (x' * x' = x * x)%float -> (z' * z' = z * z)%float ->
  potential_loop this x' y z' ms potential = potential_loop this x y z ms potential.
Proof.
  intros Hx Hz. revert potential.
  induction ms as [|mass rest IH]; intros potential; cbn [potential_loop];
    [reflexivity|].
  cbn [add sub mul div sqrt ltb FloatNumber]. rewrite Hx, Hz.
  destruct (PrimFloat.ltb _ _); [reflexivity|]. apply IH.
Qed.

Lemma binary64_getPotential_mirror (this : PhysicsSimulation float)
      (x y z x' z' : float) :
  (x' * x' = x * x)%float -> (z' * z' = z * z)%float ->
  getPotential this x' y z' = getPotential this x y z.
Proof.
  intros Hx Hz. unfold getPotential.
  rewrite (binary64_potential_loop_mirror this x y z x' z' _ _ Hx Hz).
  destruct (potential_loop this x y z (masses this) (lit 0 0)); [reflexivity|].
  cbn [add sub mul FloatNumber]. now rewrite Hx, Hz.
Qed.

(** C7, amended.  With every mass on the vertical axis, which is all the
    data model can express: over the reals the potential is invariant
    under every rotation about that axis; in binary64 it is invariant
    under the half turn [(x, y, z) -> (-x, y, -z)] and under the mirror
    images [x -> -x] and [z -> -z], which change no square. *)
Theorem getPotential_axially_symmetric :
  (forall (this : PhysicsSimulation R) (x y z theta : R),
      getPotential this x y z =
      getPotential this (x * cos theta - z * sin theta) y
                   (x * sin theta + z * cos theta))
  /\
  (forall (this : PhysicsSimulation float) (x y z : float),
      getPotential this (- x)%float y z = getPotential this x y z
      /\ getPotential this x y (- z)%float = getPotential this x y z
      /\ getPotential this (- x)%float y (- z)%float = getPotential this x y z).
Proof.
  split.
  - intros this x y z theta.
    pose proof (rotation_preserves_radius x z theta) as Hrot.
    unfold getPotential.
    rewrite (potential_loop_axial this x y z _ _ (masses this) _ Hrot).
    destruct (potential_loop this x y z (masses this) (lit 0 0)); [reflexivity|].
    real_arith. rewrite Rmult_assoc. rewrite Rmult_assoc.
    rewrite Hrot. ring.
  - intros this x y z.
    repeat split; apply binary64_getPotential_mirror;
      first [apply binary64_square_opp | reflexivity].
Qed.

(** C7 as stated fails in binary64.  One mass 8 at the origin, no
    rotation, and the quarter turn, whose cosine 0 and sine 1 are doubles:
    the turned point is [(-z, y, x)] exactly, the sum of the three squares
    is rounded in another order, and the potential is -10000 at the point
    and -80 at the turned point. *)
Lemma quarter_turn_changes_potential_in_binary64 :
  let sim := {| masses := [PointMass.mk float 0%float 8%float];
                G := 1%float; omega := 0%float |} in
  let x := 0x1.07f3d4f954b3fp-6%float in
  let y := 0x1.068ac461c17adp-4%float in
  let z := (-0x1.33642a908b14fp-4)%float in
  let c := 0%float in
  let s := 1%float in
  (cos (PI / 2) = binary64_exact c /\ sin (PI / 2) = binary64_exact s)
  /\ getPotential sim x y z = (-10000)%float
  /\ getPotential sim (x * c - z * s)%float y (x * s + z * c)%float = (-80)%float.
Proof.
  intros sim x y z c s. split; [|split; vm_compute; reflexivity].
  subst c s. rewrite binary64_exact_0, binary64_exact_1, cos_PI2, sin_PI2. split; reflexivity.
Qed.

(** ** The potential along a ray, default masses *)

(** How much [1 / sqrt] drops between two arguments whose roots are
    bounded by [M]. *)
Lemma inv_sqrt_gap (a1 a2 M : R) :
  0 < a1 -> a1 <= a2 -> R_sqrt.sqrt a2 <= M ->
  (a2 - a1) / (2 * M ^ 3) <= / R_sqrt.sqrt a1 - / R_sqrt.sqrt a2.
Proof.
  intros Ha1 Hle HM.
  assert (Ha2 : 0 < a2) by lra.
  pose proof (sqrt_lt_R0 a1 Ha1) as Hs1.
  pose proof (sqrt_lt_R0 a2 Ha2) as Hs2.
  pose proof (sqrt_le_1 a1 a2 (Rlt_le _ _ Ha1) (Rlt_le _ _ Ha2) Hle) as Hs12.
  rewrite <- (sqrt_sqrt a1) at 1 by lra.
  rewrite <- (sqrt_sqrt a2) at 1 by lra.
  set (s1 := R_sqrt.sqrt a1) in *. set (s2 := R_sqrt.sqrt a2) in *.
  assert (HMpos : 0 < M) by lra.
  assert (Hprod : s1 * s2 <= M * M) by (apply Rmult_le_compat; lra).
  assert (Hsum : s1 + s2 <= 2 * M) by lra.
  assert (Hden : 0 < 2 * M ^ 3)
    by (apply Rmult_lt_0_compat; [lra | apply pow_lt; lra]).
  assert (Hs12pos : 0 < s1 * s2) by nra.
  replace (/ s1 - / s2) with ((s2 - s1) / (s1 * s2)) by (field; lra).
  apply Rle_trans with ((s2 - s1) / (M * M)).
  - unfold Rdiv. apply Rmult_le_reg_r with (2 * M ^ 3); [exact Hden|].
    rewrite Rmult_assoc, Rinv_l by lra.
    replace ((s2 - s1) * / (M * M) * (2 * M ^ 3)) with ((s2 - s1) * (2 * M))
      by (field; lra).
    nra.
  - unfold Rdiv. apply Rmult_le_compat_l; [lra|].
    apply Rinv_le_contravar; lra.
Qed.

Lemma sqrt_lower (c a : R) : 0 <= c -> c * c <= a -> c <= R_sqrt.sqrt a.
Proof.
  intros Hc Hca. rewrite <- (sqrt_square c Hc). apply sqrt_le_1; nra.
Qed.

Lemma sqrt_upper (c a : R) : 0 <= c -> 0 <= a -> a <= c * c -> R_sqrt.sqrt a <= c.
Proof.
  intros Hc Ha Hca. rewrite <- (sqrt_square c Hc). apply sqrt_le_1; nra.
Qed.

Lemma unit_component (dx dy dz : R) :
  dx * dx + dy * dy + dz * dz = 1 -> -1 <= dy <= 1.
Proof. intros Hu. split; nra. Qed.

Lemma default_ray_potential (w dx dy dz r : R) :
  dx * dx + dy * dy + dz * dz = 1 -> 3 <= r ->
  getPotential (set_omega constructor w) (r * dx) (r * dy) (r * dz) =
  - (4 / R_sqrt.sqrt (lower_sq dy r) + 2 / R_sqrt.sqrt (upper_sq dy r))
  - 0.5 * w ^ 2 * (r * r * (1 - dy * dy)).
Proof.
  intros Hu Hr. pose proof (unit_component dx dy dz Hu) as Hdy.
  assert (Hrr : r * r * (dx * dx + dy * dy + dz * dz) = r * r) by (rewrite Hu; ring).
  assert (Hlo : distance (r * dx) (r * dy) (r * dz) (PointMass.mk R (-15 / 10) 4)
                = R_sqrt.sqrt (lower_sq dy r)).
  { unfold distance, lower_sq; cbn [PointMass.y]. f_equal. nra. }
  assert (Hup : distance (r * dx) (r * dy) (r * dz) (PointMass.mk R 2 2)
                = R_sqrt.sqrt (upper_sq dy r)).
  { unfold distance, upper_sq; cbn [PointMass.y]. f_equal. nra. }
  rewrite getPotential_far; unfold set_omega, constructor;
    cbn [masses G omega map PointMass.m]; real_arith.
  - rewrite Hlo, Hup, !Rsum_cons. unfold Rsum; cbn [fold_right].
    replace ((r * dx) ^ 2 + (r * dz) ^ 2) with (r * r * (1 - dy * dy)) by nra.
    lra.
  - apply Forall_cons; [|apply Forall_cons; [|apply Forall_nil]];
      unfold far; [rewrite Hlo | rewrite Hup].
    + apply Rle_trans with (3 / 2); [lra|].
      apply sqrt_lower; [lra|]. unfold lower_sq. nra.
    + apply Rle_trans with 1; [lra|].
      apply sqrt_lower; [lra|]. unfold upper_sq. nra.
Qed.






(** ** The round trip *)

Lemma bisect_keeps_root (this : PhysicsSimulation R) (dx dy dz r0 : R) :
  (forall r r' : R, 3 <= r -> r < r' -> r' <= 8 ->
      getPotential this (r * dx) (r * dy) (r * dz)
      < getPotential this (r' * dx) (r' * dy) (r' * dz)) ->
  forall (n : nat) (rMin rMax : R),
    3 <= rMin -> rMin <= r0 -> r0 <= rMax -> rMax <= 8 ->
    let b := bisect this dx dy dz
                    (getPotential this (r0 * dx) (r0 * dy) (r0 * dz)) n rMin rMax in
    fst b <= r0 <= snd b.
Proof.
  intros Hinc. induction n as [|n IH]; intros rMin rMax H3 Hlo Hhi H8.
  - cbn. lra.
  - rewrite bisect_S. cbn [spec_step].
    set (mid := (rMin + rMax) / 2).
    assert (Hmid : rMin <= mid <= rMax) by (unfold mid; lra).
    rewrite (Rmult_comm dx mid), (Rmult_comm dy mid), (Rmult_comm dz mid).
    destruct (Rltb _ _) eqn:E; cbn [fst snd].
    + apply Rltb_true_iff in E. apply IH; try lra.
      destruct (Rle_lt_dec mid r0) as [Hle | Hgt]; [exact Hle|].
      specialize (Hinc r0 mid). lra.
    + apply Rltb_false_iff in E. apply IH; try lra.
      destruct (Rle_lt_dec r0 mid) as [Hle | Hgt]; [exact Hle|].
      specialize (Hinc mid r0). lra.
Qed.



(** *** Where the round trip fails *)




(** ** The constructors *)

(** C9 as stated fails on the copy of the class without [getGradient]:
    its rotation speed starts at 0.5, not 0.0. *)
Lemma fresh_omega_not_zero :
  (omega (T:=R) constructor_no_gradient = 0.5
   /\ omega (T:=R) constructor_no_gradient <> 0)
  /\
  (omega (T:=float) constructor_no_gradient = 0.5%float
   /\ PrimFloat.eqb (omega (T:=float) constructor_no_gradient) 0%float = false).
Proof.
  split.
  - unfold constructor_no_gradient; cbn [omega]. rewrite lit_R_1. split; lra.
  - split; vm_compute; reflexivity.
Qed.

(** C9, amended.  Both constructors set [G = 1.0] and the two default
    masses; the rotation speed starts at 0.0 in the class that defines
    [getGradient] and at 0.5 in the other copy.  Over the reals and in
    binary64. *)
Theorem constructor_defaults :
  ((G (T:=R) constructor = 1
    /\ omega (T:=R) constructor = 0
    /\ masses (T:=R) constructor = [PointMass.mk R (-1.5) 4; PointMass.mk R 2 2])
   /\
   (G (T:=R) constructor_no_gradient = 1
    /\ omega (T:=R) constructor_no_gradient = 0.5
    /\ masses (T:=R) constructor_no_gradient
       = [PointMass.mk R (-1.5) 4; PointMass.mk R 2 2]))
  /\
  ((G (T:=float) constructor = 1%float
    /\ omega (T:=float) constructor = 0%float
    /\ masses (T:=float) constructor
       = [PointMass.mk float (-1.5)%float 4%float; PointMass.mk float 2%float 2%float])
   /\
   (G (T:=float) constructor_no_gradient = 1%float
    /\ omega (T:=float) constructor_no_gradient = 0.5%float
    /\ masses (T:=float) constructor_no_gradient
       = [PointMass.mk float (-1.5)%float 4%float; PointMass.mk float 2%float 2%float])).
Proof.
  split.
  - unfold constructor, constructor_no_gradient; cbn [G omega masses].
    rewrite !lit_R_0, !lit_R_1.
    replace (-15 / 10) with (-1.5) by lra.
    repeat split; lra.
  - repeat split; vm_compute; reflexivity.
Qed.

(** ** Binary64: concrete runs *)

(** The default masses without rotation, at [(0, 4, 0)]:
    [-(4/5.5) - (2/2.0)]. *)
Example binary64_default_potential :
  getPotential (T:=float) constructor 0%float 4%float 0%float
  = (-0x1.ba2e8ba2e8ba3p+0)%float   (* -1.7272727272727273 *).
Proof. vm_compute. reflexivity. Qed.

(** A single mass 8 at the origin, [omega = 0.02], direction [(1, 0, 0)]:
    the potential of the radius 4 is solved back to 4 within 1e-3. *)
Example binary64_sphere_round_trip :
  let sim := {| masses := [PointMass.mk float 0%float 8%float];
                G := 1%float; omega := lit 2 2 |} in
  solveRadius sim 1%float 0%float 0%float (getPotential sim 4%float 0%float 0%float)
  = 3.9999847412109375%float.
Proof. vm_compute. reflexivity. Qed.


(** * The callers *)

(** ** calculate20Masses *)

Lemma pole_loop_map {T : Type} `{Number T} (radius taper : T) (n i : nat)
      (poleMasses : list (PointMass.t T)) :
  pole_loop radius taper n i poleMasses
  = poleMasses ++ map (pole radius taper) (seq i n).
Proof.
  revert i poleMasses. induction n as [|n IH]; intros i poleMasses; cbn [pole_loop seq map].
  - now rewrite app_nil_r.
  - rewrite IH, <- app_assoc. reflexivity.
Qed.

Lemma yNormalized_range (i : nat) : (i < 20)%nat -> -1 <= yNormalized i <= 1.
Proof.
  intros Hi. unfold yNormalized.
  assert (H0 : 0 <= INR i) by apply pos_INR.
  assert (H19 : INR i <= 19).
  { replace 19 with (INR 19) by (simpl; lra). apply le_INR. lia. }
  lra.
Qed.

Lemma pole_y (radius taper : R) (i : nat) :
  PointMass.y (pole radius taper i) = yNormalized i * radius * taper.
Proof.
  unfold pole, yNormalized, poleCount; cbn [PointMass.y Nat.sub].
  rewrite !lit_R_0. cbn [add sub mul div RNumber].
  rewrite <- INR_IZR_INZ. simpl (IZR (Z.of_nat 19)). reflexivity.
Qed.

Lemma pole_m (radius taper : R) (i : nat) :
  PointMass.m (pole radius taper i)
  = (radius * sliceScale radius taper i) * (radius * sliceScale radius taper i).
Proof.
  pose proof (pole_y radius taper i) as Hy.
  unfold pole in *; cbn [PointMass.y PointMass.m] in *. unfold sliceScale.
  rewrite !lit_R_0, !lit_R_1 in *. cbn [add sub mul div ltb RNumber] in *.
  rewrite Hy. reflexivity.
Qed.

Lemma sliceScale_value (radius taper : R) (i : nat) :
  radius <> 0 ->
  sliceScale radius taper i = 1
  \/ (0 < yNormalized i * radius * taper
      /\ sliceScale radius taper i = 1 - 6 / 10 * (taper * taper) * yNormalized i).
Proof.
  intros Hr. unfold sliceScale.
  destruct (Rltb 0 (yNormalized i * radius * taper)) eqn:E; [right | now left].
  apply Rltb_true_iff in E. split; [exact E|]. field. exact Hr.
Qed.

Lemma sliceScale_pos (radius taper : R) (i : nat) :
  radius <> 0 -> (i < 20)%nat -> taper * taper < 5 / 3 ->
  0 < sliceScale radius taper i.
Proof.
  intros Hr Hi Ht. pose proof (yNormalized_range i Hi) as Hy.
  destruct (sliceScale_value radius taper i Hr) as [-> | [_ ->]]; [lra|].
  assert (0 <= taper * taper) by nra. nra.
Qed.

Lemma sliceScale_le_1 (radius taper : R) (i : nat) :
  radius <> 0 -> 0 <= radius * taper -> sliceScale radius taper i <= 1.
Proof.
  intros Hr Hrt.
  destruct (sliceScale_value radius taper i Hr) as [-> | [Hy ->]]; [lra|].
  assert (0 <= taper * taper) by nra.
  assert (0 <= yNormalized i); [|nra].
  destruct (Rle_lt_dec 0 (yNormalized i)) as [Hn | Hn]; [exact Hn|]. nra.
Qed.

Lemma fold_left_add (l : list (PointMass.t R)) (acc : R) :
  fold_left (fun a p => add a (PointMass.m p)) l acc
  = acc + Rsum (map (@PointMass.m R) l).
Proof.
  revert acc. induction l as [|p l IH]; intros acc; cbn [fold_left map].
  - unfold Rsum; simpl. lra.
  - rewrite IH, Rsum_cons. cbn [add RNumber]. lra.
Qed.

Lemma Rsum_app (l1 l2 : list R) : Rsum (l1 ++ l2) = Rsum l1 + Rsum l2.
Proof.
  induction l1 as [|a l1 IH]; cbn [app].
  - unfold Rsum at 2; simpl. lra.
  - rewrite !Rsum_cons, IH. lra.
Qed.

Lemma Rsum_nonneg (l : list R) : Forall (fun a => 0 <= a) l -> 0 <= Rsum l.
Proof.
  induction 1 as [|a l Ha _ IH]; [unfold Rsum; simpl; lra|].
  rewrite Rsum_cons. lra.
Qed.

Lemma Rsum_ge_In (l : list R) (a : R) :
  Forall (fun b => 0 <= b) l -> In a l -> a <= Rsum l.
Proof.
  induction 1 as [|b l Hb Hl IH]; intros Hin; [contradiction|].
  rewrite Rsum_cons. pose proof (Rsum_nonneg l Hl). destruct Hin as [-> | Hin].
  - lra.
  - specialize (IH Hin). lra.
Qed.

Lemma Rsum_scale (l : list R) (c : R) : Rsum (map (fun a => a * c) l) = Rsum l * c.
Proof.
  induction l as [|a l IH]; cbn [map]; [unfold Rsum; simpl; lra|].
  rewrite !Rsum_cons, IH. lra.
Qed.

Lemma raw_masses_nonneg (radius taper : R) :
  Forall (fun a => 0 <= a) (raw_masses radius taper).
Proof.
  unfold raw_masses. apply Forall_forall. intros a Ha.
  apply in_map_iff in Ha as (i & <- & _). rewrite pole_m. nra.
Qed.

Lemma raw_total_pos (radius taper : R) :
  radius <> 0 -> radius * radius <= Rsum (raw_masses radius taper).
Proof.
  intros Hr. apply Rsum_ge_In; [apply raw_masses_nonneg|].
  unfold raw_masses. apply in_map_iff.
  destruct (Rle_lt_dec 0 (radius * taper)) as [Hrt | Hrt].
  - exists 0%nat. split; [|apply in_seq; lia]. rewrite pole_m. unfold sliceScale.
    replace (Rltb 0 (yNormalized 0 * radius * taper)) with false; [ring|].
    symmetry. apply Rltb_false_iff. unfold yNormalized. simpl. nra.
  - exists 19%nat. split; [|apply in_seq; lia]. rewrite pole_m. unfold sliceScale.
    replace (Rltb 0 (yNormalized 19 * radius * taper)) with false; [ring|].
    symmetry. apply Rltb_false_iff. unfold yNormalized. simpl. nra.
Qed.

Lemma calculate20Masses_real (radius taper : R) :
  calculate20Masses radius taper
  = map (fun i => PointMass.mk R (yNormalized i * radius * taper)
                               (PointMass.m (pole radius taper i)
                                * (10 / Rsum (raw_masses radius taper))))
        (seq 0 20).
Proof.
  unfold calculate20Masses, poleCount. rewrite pole_loop_map. cbn [app].
  rewrite fold_left_add, map_map, !lit_R_0. fold (raw_masses radius taper).
  rewrite map_map. cbn [add mul div RNumber]. rewrite Rplus_0_l.
  apply map_ext. intros i. now rewrite pole_y.
Qed.

Lemma calculate20Masses_length {T : Type} `{Number T} (radius taper : T) :
  length (calculate20Masses radius taper) = 20%nat.
Proof.
  unfold calculate20Masses, poleCount.
  rewrite length_map, pole_loop_map, length_app, length_map, length_seq. reflexivity.
Qed.

Lemma calculate20Masses_nth (radius taper : R) (i : nat) (d : PointMass.t R) :
  (i < 20)%nat ->
  nth i (calculate20Masses radius taper) d
  = PointMass.mk R (yNormalized i * radius * taper)
                 (PointMass.m (pole radius taper i)
                  * (10 / Rsum (raw_masses radius taper))).
Proof.
  intros Hi. rewrite calculate20Masses_real.
  set (f := fun i : nat => _).
  rewrite (nth_indep _ d (f 0%nat)) by (rewrite length_map, length_seq; exact Hi).
  rewrite map_nth, seq_nth by exact Hi. reflexivity.
Qed.

(** X1.  [calculate20Masses] returns 20 masses on the vertical axis, the
    one of index [i] at the height [(-1 + 2i/19)·radius·taper]: they are
    spread evenly over the segment from [-radius·taper] to [radius·taper],
    mirrored about the origin; in binary64 too there are 20 of them. *)
Theorem calculate20Masses_positions (radius taper : R) :
  length (calculate20Masses radius taper) = 20%nat
  /\ (forall (i : nat) (d : PointMass.t R),
         (i < 20)%nat ->
         PointMass.y (nth i (calculate20Masses radius taper) d)
         = (-1 + 2 * INR i / 19) * radius * taper
         /\ PointMass.y (nth (19 - i) (calculate20Masses radius taper) d)
            = - PointMass.y (nth i (calculate20Masses radius taper) d))
  /\ Forall (fun p => Rabs (PointMass.y p) <= Rabs (radius * taper))
            (calculate20Masses radius taper)
  /\ (forall radius' taper' : float,
         length (calculate20Masses radius' taper') = 20%nat).
Proof.
  split; [apply calculate20Masses_length|]. split; [|split].
  - intros i d Hi.
    rewrite !calculate20Masses_nth by lia. cbn [PointMass.y]. unfold yNormalized.
    split; [reflexivity|].
    rewrite minus_INR by lia. simpl (INR 19). field.
  - rewrite calculate20Masses_real. apply Forall_forall. intros p Hp.
    apply in_map_iff in Hp as (i & <- & Hi). apply in_seq in Hi. cbn [PointMass.y].
    pose proof (yNormalized_range i ltac:(lia)) as Hy.
    rewrite Rmult_assoc, Rabs_mult.
    rewrite <- (Rmult_1_l (Rabs (radius * taper))) at 2.
    apply Rmult_le_compat_r; [apply Rabs_pos|]. apply Rabs_le. lra.
  - intros radius' taper'. apply calculate20Masses_length.
Qed.

(** X2.  Whatever the taper, the masses returned for a radius other than 0
    add up to 10. *)
Theorem calculate20Masses_total (radius taper : R) :
  radius <> 0 ->
  Rsum (map (@PointMass.m R) (calculate20Masses radius taper)) = 10.
Proof.
  intros Hr. rewrite calculate20Masses_real, map_map. cbn [PointMass.m].
  pose proof (raw_total_pos radius taper Hr) as Htot.
  assert (Hpos : 0 < Rsum (raw_masses radius taper)) by nra.
  rewrite <- (map_map (fun i => PointMass.m (pole radius taper i))
                      (fun a => a * (10 / Rsum (raw_masses radius taper)))).
  fold (raw_masses radius taper). rewrite Rsum_scale. field. lra.
Qed.

Lemma calculate20Masses_total_witness :
  4 <> 0 /\ Rsum (map (@PointMass.m R) (calculate20Masses 4 0.2)) = 10.
Proof.
  split; [lra|]. apply calculate20Masses_total. lra.
Defined.

(** X3.  For a radius other than 0 and a taper with [taper² < 5/3], which
    includes the range 0 to 0.5 of the taper control, every mass returned
    is positive. *)
Theorem calculate20Masses_positive (radius taper : R) :
  radius <> 0 -> taper * taper < 5 / 3 ->
  Forall (fun p => 0 < PointMass.m p) (calculate20Masses radius taper).
Proof.
  intros Hr Ht. rewrite calculate20Masses_real. apply Forall_forall. intros p Hp.
  apply in_map_iff in Hp as (i & <- & Hi). apply in_seq in Hi. cbn [PointMass.m].
  pose proof (raw_total_pos radius taper Hr) as Htot.
  assert (Hpos : 0 < Rsum (raw_masses radius taper)) by nra.
  pose proof (sliceScale_pos radius taper i Hr ltac:(lia) Ht) as Hs.
  rewrite pole_m. apply Rmult_lt_0_compat.
  - assert (radius * sliceScale radius taper i <> 0) by nra. nra.
  - apply Rdiv_lt_0_compat; lra.
Qed.

Lemma calculate20Masses_positive_witness :
  (4 <> 0 /\ 0.5 * 0.5 < 5 / 3)
  /\ Forall (fun p => 0 < PointMass.m p) (calculate20Masses (T:=R) 4 0.5).
Proof.
  split; [split; lra|]. apply calculate20Masses_positive; lra.
Defined.

Lemma map_seq_const {A : Type} (f : nat -> A) (c : A) (n : nat) :
  (forall i, f i = c) -> forall s, map f (seq s n) = repeat c n.
Proof.
  intros Hf. induction n as [|n IH]; intros s; cbn [seq map repeat]; [reflexivity|].
  now rewrite Hf, IH.
Qed.

Lemma pole_m_no_taper (radius : R) (i : nat) :
  PointMass.m (pole radius 0 i) = radius * radius.
Proof.
  rewrite pole_m. unfold sliceScale.
  replace (Rltb 0 (yNormalized i * radius * 0)) with false; [ring|].
  symmetry. apply Rltb_false_iff. lra.
Qed.

Lemma calculate20Masses_no_taper_list (radius : R) :
  radius <> 0 ->
  calculate20Masses radius 0 = repeat (PointMass.mk R 0 (1 / 2)) 20.
Proof.
  intros Hr. rewrite calculate20Masses_real.
  assert (Htot : Rsum (raw_masses radius 0) = 20 * (radius * radius)).
  { unfold raw_masses. rewrite (map_seq_const _ (radius * radius)) by apply pole_m_no_taper.
    unfold Rsum; simpl. ring. }
  apply map_seq_const. intros i. rewrite pole_m_no_taper, Htot. f_equal.
  - ring.
  - field. exact Hr.
Qed.

(** X4.  Without taper the 20 masses collapse onto the origin, each of
    mass 0.5, and the potential they give is that of a single point mass
    10 at the origin, the sentinel included. *)
Theorem calculate20Masses_no_taper (radius : R) :
  radius <> 0 ->
  calculate20Masses radius 0 = repeat (PointMass.mk R 0 (1 / 2)) 20
  /\ forall (this : PhysicsSimulation R) (x y z : R),
      getPotential (set_masses this (calculate20Masses radius 0)) x y z
      = getPotential (set_masses this [PointMass.mk R 0 10]) x y z.
Proof.
  intros Hr. split; [now apply calculate20Masses_no_taper_list|].
  intros this x y z. rewrite (calculate20Masses_no_taper_list radius Hr).
  set (d := distance x y z (PointMass.mk R 0 (1 / 2))).
  assert (Hd10 : distance x y z (PointMass.mk R 0 10) = d) by reflexivity.
  destruct (Rlt_le_dec d 0.1) as [Hnear | Hfar].
  - unfold getPotential, set_masses; cbn [masses].
    rewrite !potential_loop_near; [reflexivity| |].
    + apply Exists_cons_hd. unfold near. now rewrite Hd10.
    + cbn [repeat]. apply Exists_cons_hd. exact Hnear.
  - assert (Hdpos : d <> 0) by lra.
    rewrite !getPotential_far.
    + unfold set_masses; cbn [masses G omega repeat map PointMass.m].
      rewrite Hd10. fold d. rewrite !Rsum_cons. unfold Rsum; cbn [fold_right].
      field. exact Hdpos.
    + unfold set_masses; cbn [masses]. apply Forall_cons; [|apply Forall_nil].
      unfold far. now rewrite Hd10.
    + unfold set_masses; cbn [masses]. apply Forall_forall. intros p Hp.
      apply repeat_spec in Hp. subst p. exact Hfar.
Qed.

Lemma calculate20Masses_no_taper_witness :
  4 <> 0
  /\ getPotential (set_masses constructor (calculate20Masses (T:=R) 4 0)) 4 0 0
     = getPotential (set_masses constructor [PointMass.mk R 0 10]) 4 0 0.
Proof.
  split; [lra|]. apply calculate20Masses_no_taper. lra.
Defined.

(** X5.  The egg is bottom heavy: for a radius other than 0, with
    [radius·taper >= 0] and [taper² < 5/3], a mass at or below the origin
    is at least as heavy as any other of the 20. *)
Theorem calculate20Masses_bottom_heavy (radius taper : R) (i j : nat)
        (d : PointMass.t R) :
  radius <> 0 -> 0 <= radius * taper -> taper * taper < 5 / 3 ->
  (i < 20)%nat -> (j < 20)%nat ->
  PointMass.y (nth i (calculate20Masses radius taper) d) <= 0 ->
  PointMass.m (nth j (calculate20Masses radius taper) d)
  <= PointMass.m (nth i (calculate20Masses radius taper) d).
Proof.
  intros Hr Hrt Ht Hi Hj. rewrite !calculate20Masses_nth by assumption.
  cbn [PointMass.y PointMass.m]. intros Hy.
  pose proof (raw_total_pos radius taper Hr) as Htot.
  assert (Hpos : 0 < 10 / Rsum (raw_masses radius taper))
    by (apply Rdiv_lt_0_compat; nra).
  apply Rmult_le_compat_r; [lra|]. rewrite !pole_m.
  assert (Hsi : sliceScale radius taper i = 1).
  { unfold sliceScale.
    replace (Rltb 0 (yNormalized i * radius * taper)) with false; [reflexivity|].
    symmetry. apply Rltb_false_iff. exact Hy. }
  pose proof (sliceScale_pos radius taper j Hr Hj Ht) as Hj0.
  pose proof (sliceScale_le_1 radius taper j Hr Hrt) as Hj1.
  rewrite Hsi. assert (0 < radius * radius) by nra.
  assert (sliceScale radius taper j * sliceScale radius taper j <= 1) by nra.
  nra.
Qed.

Lemma calculate20Masses_bottom_heavy_witness :
  (4 <> 0 /\ 0 <= 4 * 0.2 /\ 0.2 * 0.2 < 5 / 3 /\ (0 < 20)%nat /\ (19 < 20)%nat)
  /\ PointMass.m (nth 19 (calculate20Masses (T:=R) 4 0.2) (PointMass.mk R 0 0))
     <= PointMass.m (nth 0 (calculate20Masses (T:=R) 4 0.2) (PointMass.mk R 0 0)).
Proof.
  split; [repeat split; try lra; lia|].
  apply calculate20Masses_bottom_heavy; try lra; try lia.
  rewrite calculate20Masses_nth by lia. cbn [PointMass.y]. unfold yNormalized.
  simpl. lra.
Defined.

(** ** More on the solver *)

Section Bracket.
Context {T : Type} `{Number T}.


Lemma bisect_all_false (this : PhysicsSimulation T) (dx dy dz targetPotential : T)
      (n : nat) (rMin rMax : T) :
  (forall r : T, below this dx dy dz targetPotential r = false) ->
  bisect this dx dy dz targetPotential n rMin rMax = all_false n rMin rMax.
Proof.
  intros Hall. revert rMax. induction n as [|n IH]; intros rMax; [reflexivity|].
  cbn [bisect all_false]. unfold below in Hall. now rewrite Hall, IH.
Qed.

Lemma bisect_all_true (this : PhysicsSimulation T) (dx dy dz targetPotential : T)
      (n : nat) (rMin rMax : T) :
  (forall r : T, below this dx dy dz targetPotential r = true) ->
  bisect this dx dy dz targetPotential n rMin rMax = all_true n rMin rMax.
Proof.
  intros Hall. revert rMin. induction n as [|n IH]; intros rMin; [reflexivity|].
  cbn [bisect all_true]. unfold below in Hall. now rewrite Hall, IH.
Qed.

Lemma bisect_false_path (this : PhysicsSimulation T) (dx dy dz targetPotential : T)
      (n : nat) (rMin rMax : T) :
  forallb (fun r => negb (below this dx dy dz targetPotential r))
          (false_path n rMin rMax) = true ->
  bisect this dx dy dz targetPotential n rMin rMax = all_false n rMin rMax.
Proof.
  revert rMax. induction n as [|n IH]; intros rMax Hall; [reflexivity|].
  cbn [false_path forallb] in Hall. apply andb_true_iff in Hall as [Hmid Hrest].
  apply negb_true_iff in Hmid. unfold below in Hmid.
  cbn [bisect all_false]. rewrite Hmid. now apply IH.
Qed.

Lemma bisect_true_path (this : PhysicsSimulation T) (dx dy dz targetPotential : T)
      (n : nat) (rMin rMax : T) :
  forallb (below this dx dy dz targetPotential) (true_path n rMin rMax) = true ->
  bisect this dx dy dz targetPotential n rMin rMax = all_true n rMin rMax.
Proof.
  revert rMin. induction n as [|n IH]; intros rMin Hall; [reflexivity|].
  cbn [true_path forallb] in Hall. apply andb_true_iff in Hall as [Hmid Hrest].
  unfold below in Hmid.
  cbn [bisect all_true]. rewrite Hmid. now apply IH.
Qed.

End Bracket.

Lemma binary64_ltb_nan (v : float) : PrimFloat.ltb v nan = false.
Proof.
  rewrite FloatAxioms.ltb_spec.
  replace (Prim2SF nan) with S754_nan by (vm_compute; reflexivity).
  unfold SFltb. now destruct (Prim2SF v).
Qed.

Lemma real_all_false (n : nat) (rMin rMax : R) :
  all_false n rMin rMax = (rMin, rMin + (rMax - rMin) / 2 ^ n).
Proof.
  revert rMax. induction n as [|n IH]; intros rMax; cbn [all_false].
  - f_equal. simpl. lra.
  - rewrite IH, lit_R_1. cbn [add mul RNumber]. f_equal. cbn [pow]. field.
    apply pow_nonzero. lra.
Qed.

Lemma real_all_true (n : nat) (rMin rMax : R) :
  all_true n rMin rMax = (rMax - (rMax - rMin) / 2 ^ n, rMax).
Proof.
  revert rMin. induction n as [|n IH]; intros rMin; cbn [all_true].
  - f_equal. simpl. lra.
  - rewrite IH, lit_R_1. cbn [add mul RNumber]. f_equal. cbn [pow]. field.
    apply pow_nonzero. lra.
Qed.

Lemma real_bisect_all_false (this : PhysicsSimulation R) (dx dy dz t : R)
      (n : nat) (rMin rMax : R) :
  (forall r, rMin <= r <= rMax -> t <= getPotential this (dx * r) (dy * r) (dz * r)) ->
  rMin <= rMax ->
  bisect this dx dy dz t n rMin rMax = all_false n rMin rMax.
Proof.
  revert rMax. induction n as [|n IH]; intros rMax Hall Hle; [reflexivity|].
  cbn [bisect all_false]. rewrite lit_R_1. cbn [add mul ltb RNumber].
  replace (Rltb _ t) with false.
  - apply IH; [|lra]. intros r Hr. apply Hall. lra.
  - symmetry. apply Rltb_false_iff. apply Hall. lra.
Qed.

Lemma real_bisect_all_true (this : PhysicsSimulation R) (dx dy dz t : R)
      (n : nat) (rMin rMax : R) :
  (forall r, rMin <= r <= rMax -> getPotential this (dx * r) (dy * r) (dz * r) < t) ->
  rMin <= rMax ->
  bisect this dx dy dz t n rMin rMax = all_true n rMin rMax.
Proof.
  revert rMin. induction n as [|n IH]; intros rMin Hall Hle; [reflexivity|].
  cbn [bisect all_true]. rewrite lit_R_1. cbn [add mul ltb RNumber].
  replace (Rltb _ t) with true.
  - apply IH; [|lra]. intros r Hr. apply Hall. lra.
  - symmetry. apply Rltb_true_iff. apply Hall. lra.
Qed.

(** X6.  Whatever the potential, when it is below the target at the
    radius 3 and not below it at the radius 8, [solveRadius] returns the
    midpoint of two radii [5/2^15] apart, the lower with a potential below
    the target and the upper with a potential not below it: over the
    reals and in binary64. *)
Theorem solveRadius_straddles_target :
  (forall (this : PhysicsSimulation R) (dx dy dz t : R),
      getPotential this (dx * 3) (dy * 3) (dz * 3) < t ->
      t <= getPotential this (dx * 8) (dy * 8) (dz * 8) ->
      exists rMin rMax : R,
        solveRadius this dx dy dz t = (rMin + rMax) / 2
        /\ rMax - rMin = 5 / 2 ^ 15
        /\ getPotential this (dx * rMin) (dy * rMin) (dz * rMin) < t
        /\ t <= getPotential this (dx * rMax) (dy * rMax) (dz * rMax))
  /\
  (forall (this : PhysicsSimulation float) (dx dy dz t : float),
      PrimFloat.ltb (getPotential this (dx * 3) (dy * 3) (dz * 3))%float t = true ->
      PrimFloat.ltb (getPotential this (dx * 8) (dy * 8) (dz * 8))%float t = false ->
      exists rMin rMax : float,
        solveRadius this dx dy dz t = ((rMin + rMax) * 0.5)%float
        /\ PrimFloat.eqb (rMax - rMin)%float (5 / 32768)%float = true
        /\ PrimFloat.ltb
             (getPotential this (dx * rMin) (dy * rMin) (dz * rMin))%float t = true
        /\ PrimFloat.ltb
             (getPotential this (dx * rMax) (dy * rMax) (dz * rMax))%float t = false).
Proof.
  split.
  - intros this dx dy dz t Hlo Hhi.
    exists (fst (bisect this dx dy dz t 15 3 8)), (snd (bisect this dx dy dz t 15 3 8)).
    split; [apply solveRadius_midpoint|]. split.
    + destruct (bisect_bounds this dx dy dz t 15 3 8) as (_ & _ & _ & Hw); [lra|].
      rewrite Hw. lra.
    + destruct (bisect_straddles this dx dy dz t 15 3 8) as [Ha Hb].
      * apply Rltb_true_iff. exact Hlo.
      * apply Rltb_false_iff. exact Hhi.
      * split; [apply Rltb_true_iff in Ha | apply Rltb_false_iff in Hb]; assumption.
  - intros this dx dy dz t Hlo Hhi.
    exists (fst (bisect this dx dy dz t 15 3%float 8%float)),
           (snd (bisect this dx dy dz t 15 3%float 8%float)).
    split; [|split].
    + unfold solveRadius, iterations.
      change (lit (T:=float) 3 0) with 3%float.
      change (lit (T:=float) 8 0) with 8%float.
      now destruct (bisect this dx dy dz t 15 3%float 8%float).
    + apply (binary64_final_bracket_width this dx dy dz t).
    + exact (bisect_straddles this dx dy dz t 15 3%float 8%float Hlo Hhi).
Qed.

Lemma binary64_off_the_ends_checked :
  all_brackets (T:=float) 15 3%float 8%float returned_off_the_ends = true.
Proof. vm_compute. reflexivity. Qed.


Lemma binary64_solveRadius_off_the_ends
      (this : PhysicsSimulation float) (dx dy dz t : float) :
  PrimFloat.leb 3.0000762939453125%float (solveRadius this dx dy dz t) = true
  /\ PrimFloat.leb (solveRadius this dx dy dz t) 7.9999237060546875%float = true.
Proof.
  rewrite binary64_solveRadius_returned.
  pose proof (all_brackets_sound returned_off_the_ends this dx dy dz t
                15 3%float 8%float binary64_off_the_ends_checked) as Hin.
  destruct (bisect this dx dy dz t 15 3%float 8%float) as [rMin rMax].
  cbn [fst snd] in *. unfold returned_off_the_ends in Hin.
  now apply andb_true_iff in Hin.
Qed.

(** X7.  [solveRadius] never returns an end of its bracket: the result
    lies between [3 + 5/2^16] and [8 - 5/2^16].  It is the lower value
    when none of the 15 comparisons of the run finds the potential below
    the target, and the upper value when each of them does.  Over the
    reals that is so for a target at or below the potential all over the
    bracket, and for a target above it all over the bracket; in binary64
    the comparisons are those at the 15 midpoints of the run, and a NaN
    target makes every comparison fail. *)
Theorem solveRadius_degenerate :
  (forall (this : PhysicsSimulation R) (dx dy dz t : R),
      3 + 5 / 2 ^ 16 <= solveRadius this dx dy dz t <= 8 - 5 / 2 ^ 16
      /\ ((forall r, 3 <= r <= 8 ->
                     t <= getPotential this (dx * r) (dy * r) (dz * r)) ->
          solveRadius this dx dy dz t = 3 + 5 / 2 ^ 16)
      /\ ((forall r, 3 <= r <= 8 ->
                     getPotential this (dx * r) (dy * r) (dz * r) < t) ->
          solveRadius this dx dy dz t = 8 - 5 / 2 ^ 16))
  /\
  (forall (this : PhysicsSimulation float) (dx dy dz t : float),
      (PrimFloat.leb 3.0000762939453125%float (solveRadius this dx dy dz t) = true
       /\ PrimFloat.leb (solveRadius this dx dy dz t) 7.9999237060546875%float = true)
      /\ solveRadius this dx dy dz nan = 3.0000762939453125%float
      /\ (forallb (fun r => negb (below this dx dy dz t r))
                  (false_path 15 3%float 8%float) = true ->
          solveRadius this dx dy dz t = 3.0000762939453125%float)
      /\ (forallb (below this dx dy dz t) (true_path 15 3%float 8%float) = true ->
          solveRadius this dx dy dz t = 7.9999237060546875%float)).
Proof.
  split.
  - intros this dx dy dz t. rewrite solveRadius_midpoint.
    assert (Hp : 2 ^ 16 = 2 * 2 ^ 15) by (simpl; lra).
    assert (Hp15 : 0 < 2 ^ 15) by (apply pow_lt; lra).
    split; [|split].
    + destruct (bisect_bounds this dx dy dz t 15 3 8) as (B1 & B2 & B3 & B4); [lra|].
      cbv zeta in *. rewrite Hp.
      replace (5 / (2 * 2 ^ 15)) with ((8 - 3) / 2 ^ 15 / 2) by (field; lra).
      rewrite <- B4. lra.
    + intros Hall. rewrite real_bisect_all_false, real_all_false by (assumption || lra).
      cbn [fst snd]. rewrite Hp. field.
    + intros Hall. rewrite real_bisect_all_true, real_all_true by (assumption || lra).
      cbn [fst snd]. rewrite Hp. field.
  - intros this dx dy dz t. split; [|split; [|split]].
    + apply binary64_solveRadius_off_the_ends.
    + rewrite binary64_solveRadius_returned, bisect_all_false.
      * vm_compute. reflexivity.
      * intros r. unfold below. apply binary64_ltb_nan.
    + intros Hall. rewrite binary64_solveRadius_returned, bisect_false_path by exact Hall.
      vm_compute. reflexivity.
    + intros Hall. rewrite binary64_solveRadius_returned, bisect_true_path by exact Hall.
      vm_compute. reflexivity.
Qed.

(** ** The range of the potential *)

Lemma near_or_far (x y z : R) (ms : list (PointMass.t R)) :
  Exists (near x y z) ms \/ Forall (far x y z) ms.
Proof.
  induction ms as [|mass rest [IH | IH]].
  - right. constructor.
  - left. now apply Exists_cons_tl.
  - destruct (Rlt_le_dec (distance x y z mass) 0.1) as [Hn | Hf].
    + left. now apply Exists_cons_hd.
    + right. now constructor.
Qed.

Lemma gravity_terms_range (this : PhysicsSimulation R) (x y z : R)
      (ms : list (PointMass.t R)) :
  0 <= G this -> Forall (fun p => 0 <= PointMass.m p) ms -> Forall (far x y z) ms ->
  0 <= Rsum (map (fun mass => G this * PointMass.m mass / distance x y z mass) ms)
  <= 10 * G this * Rsum (map (@PointMass.m R) ms).
Proof.
  intros HG Hm Hfar. induction Hm as [|mass rest Hmass _ IH]; cbn [map].
  - unfold Rsum; simpl. lra.
  - inversion Hfar as [|? ? Hf Hrest]; subst. specialize (IH Hrest).
    rewrite !Rsum_cons. unfold far in Hf.
    set (d := distance x y z mass) in *.
    assert (Hgm : 0 <= G this * PointMass.m mass) by nra.
    assert (Hinv : 0 < / d <= 10).
    { split; [apply Rinv_0_lt_compat; lra|].
      replace 10 with (/ 0.1) by lra. apply Rinv_le_contravar; lra. }
    unfold Rdiv. nra.
Qed.

(** X8.  With a gravitational constant and masses that are not negative,
    [getPotential] is never positive; away from the singularity of every
    mass it is at least [-10·G·Σm_i - 0.5·omega²·(x²+z²)]; so as long as
    [10·G·Σm_i + 0.5·omega²·(x²+z²) < 10000] the value -10000 is returned
    only within the singularity radius of some mass. *)
Theorem getPotential_range (this : PhysicsSimulation R) (x y z : R) :
  0 <= G this ->
  Forall (fun p => 0 <= PointMass.m p) (masses this) ->
  getPotential this x y z <= 0
  /\ (Forall (fun mass => 0.1 <= distance x y z mass) (masses this) ->
      - (10 * G this * Rsum (map (@PointMass.m R) (masses this)))
      - 0.5 * omega this ^ 2 * (x ^ 2 + z ^ 2)
      <= getPotential this x y z)
  /\ (10 * G this * Rsum (map (@PointMass.m R) (masses this))
      + 0.5 * omega this ^ 2 * (x ^ 2 + z ^ 2) < 10000 ->
      (getPotential this x y z = -10000
       <-> Exists (fun mass => distance x y z mass < 0.1) (masses this))).
Proof.
  intros HG Hm.
  assert (Hrot : 0 <= 0.5 * omega this ^ 2 * (x ^ 2 + z ^ 2))
    by (simpl; nra).
  assert (Hsentinel : Exists (near x y z) (masses this) ->
                      getPotential this x y z = -10000).
  { intros Hn. unfold getPotential. now rewrite potential_loop_near. }
  assert (Hregular : Forall (far x y z) (masses this) ->
                     - (10 * G this * Rsum (map (@PointMass.m R) (masses this)))
                     - 0.5 * omega this ^ 2 * (x ^ 2 + z ^ 2)
                     <= getPotential this x y z <= 0).
  { intros Hf. rewrite getPotential_far by exact Hf.
    pose proof (gravity_terms_range this x y z (masses this) HG Hm Hf). lra. }
  split; [|split].
  - destruct (near_or_far x y z (masses this)) as [Hn | Hf].
    + rewrite Hsentinel by exact Hn. lra.
    + now apply Hregular.
  - intros Hf. now apply Hregular.
  - intros Hsmall. split; [|exact Hsentinel].
    intros Hv. destruct (near_or_far x y z (masses this)) as [Hn | Hf]; [exact Hn|].
    pose proof (Hregular Hf). lra.
Qed.

(** ** Masses on the axis, seen from the bracket *)

Lemma ray_distance (dx dy dz r : R) (mass : PointMass.t R) :
  dx * dx + dy * dy + dz * dz = 1 ->
  distance (r * dx) (r * dy) (r * dz) mass
  = R_sqrt.sqrt (ray_sq dy (PointMass.y mass) r).
Proof.
  intros Hu. unfold distance, ray_sq. f_equal.
  assert (Hrr : r * r * (dx * dx + dy * dy + dz * dz) = r * r) by (rewrite Hu; ring).
  nra.
Qed.

Lemma Rabs_bound (a b : R) : Rabs a <= b -> - b <= a <= b.
Proof. unfold Rabs. destruct (Rcase_abs a); lra. Qed.

Lemma ray_sq_range (dy ym r : R) :
  -1 <= dy <= 1 -> Rabs ym <= 2 -> 3 <= r ->
  1 <= ray_sq dy ym r <= (r + 2) * (r + 2).
Proof.
  intros Hdy Hym Hr. unfold ray_sq.
  assert (Ha : 0 <= Rabs ym) by apply Rabs_pos.
  assert (Ha2 : Rabs ym * Rabs ym = ym * ym).
  { unfold Rabs. destruct (Rcase_abs ym); ring. }
  assert (Hp : - Rabs ym <= dy * ym <= Rabs ym).
  { apply Rabs_bound. rewrite Rabs_mult.
    rewrite <- (Rmult_1_l (Rabs ym)) at 2.
    apply Rmult_le_compat_r; [exact Ha|]. apply Rabs_le. lra. }
  set (a := Rabs ym) in *. set (p := dy * ym) in *.
  replace (r * r - 2 * r * dy * ym + ym * ym) with (r * r - 2 * r * p + a * a)
    by (unfold p; rewrite Ha2; ring).
  assert (0 <= r * (a - p)) by nra. assert (0 <= r * (a + p)) by nra.
  split; nra.
Qed.

Lemma ray_far (dx dy dz r : R) (mass : PointMass.t R) :
  dx * dx + dy * dy + dz * dz = 1 -> Rabs (PointMass.y mass) <= 2 -> 3 <= r ->
  1 <= distance (r * dx) (r * dy) (r * dz) mass.
Proof.
  intros Hu Hy Hr. rewrite ray_distance by exact Hu.
  pose proof (unit_component dx dy dz Hu) as Hdy.
  pose proof (ray_sq_range dy (PointMass.y mass) r Hdy Hy Hr).
  apply sqrt_lower; lra.
Qed.

Lemma ray_term_gap (gm dx dy dz r1 r2 : R) (mass : PointMass.t R) :
  dx * dx + dy * dy + dz * dz = 1 -> Rabs (PointMass.y mass) <= 2 -> 0 <= gm ->
  3 <= r1 -> r1 <= r2 -> r2 <= 8 ->
  gm * ((r2 - r1) * (r1 + r2) / 6000)
  <= gm / distance (r1 * dx) (r1 * dy) (r1 * dz) mass
     - gm / distance (r2 * dx) (r2 * dy) (r2 * dz) mass.
Proof.
  intros Hu Hy Hgm H1 H12 H2. rewrite !ray_distance by exact Hu.
  pose proof (unit_component dx dy dz Hu) as Hdy.
  set (ym := PointMass.y mass) in *.
  pose proof (ray_sq_range dy ym r1 Hdy Hy H1) as Hq1.
  pose proof (ray_sq_range dy ym r2 Hdy Hy ltac:(lra)) as Hq2.
  assert (Hq12 : ray_sq dy ym r2 - ray_sq dy ym r1 = (r2 - r1) * (r1 + r2 - 2 * dy * ym))
    by (unfold ray_sq; ring).
  assert (Hym : -2 <= ym <= 2) by (apply Rabs_bound in Hy; lra).
  assert (Hdyym : dy * ym <= 2) by nra.
  assert (Hdiff : 0 <= (r2 - r1) * (r1 + r2 - 2 * dy * ym))
    by (apply Rmult_le_pos; lra).
  assert (Hle : ray_sq dy ym r1 <= ray_sq dy ym r2) by lra.
  assert (Hsq : (r2 + 2) * (r2 + 2) <= 10 * 10) by nra.
  assert (HM : R_sqrt.sqrt (ray_sq dy ym r2) <= 10) by (apply sqrt_upper; lra).
  assert (Hpos1 : 0 < ray_sq dy ym r1) by lra.
  pose proof (inv_sqrt_gap _ _ 10 Hpos1 Hle HM) as Hgap. rewrite Hq12 in Hgap.
  assert (Hlin : (r2 - r1) * (r1 + r2) / 6000
                 <= (r2 - r1) * (r1 + r2 - 2 * dy * ym) / (2 * 10 ^ 3)).
  { assert (0 <= (r2 - r1) * (3 * (r1 + r2 - 2 * dy * ym) - (r1 + r2))) by nra.
    simpl. lra. }
  unfold Rdiv in *.
  assert (Hstep : (r2 - r1) * (r1 + r2) * / 6000
                  <= / R_sqrt.sqrt (ray_sq dy ym r1) - / R_sqrt.sqrt (ray_sq dy ym r2))
    by lra.
  nra.
Qed.

Lemma ray_sum_gap (this : PhysicsSimulation R) (dx dy dz r1 r2 : R)
      (ms : list (PointMass.t R)) :
  dx * dx + dy * dy + dz * dz = 1 -> 0 <= G this ->
  Forall (fun p => Rabs (PointMass.y p) <= 2 /\ 0 <= PointMass.m p) ms ->
  3 <= r1 -> r1 <= r2 -> r2 <= 8 ->
  G this * Rsum (map (@PointMass.m R) ms) * ((r2 - r1) * (r1 + r2) / 6000)
  <= Rsum (map (fun mass => G this * PointMass.m mass
                            / distance (r1 * dx) (r1 * dy) (r1 * dz) mass) ms)
     - Rsum (map (fun mass => G this * PointMass.m mass
                              / distance (r2 * dx) (r2 * dy) (r2 * dz) mass) ms).
Proof.
  intros Hu HG Hms H1 H12 H2.
  induction Hms as [|mass rest [Hy Hm] _ IH]; cbn [map].
  - unfold Rsum; simpl. lra.
  - rewrite !Rsum_cons.
    pose proof (ray_term_gap (G this * PointMass.m mass) dx dy dz r1 r2 mass
                  Hu Hy ltac:(nra) H1 H12 H2) as Hterm.
    lra.
Qed.

Lemma axis_masses_increasing (this : PhysicsSimulation R) (dx dy dz r1 r2 : R) :
  0 <= G this ->
  Forall (fun p => Rabs (PointMass.y p) <= 2 /\ 0 <= PointMass.m p) (masses this) ->
  3000 * omega this ^ 2 < G this * Rsum (map (@PointMass.m R) (masses this)) ->
  dx * dx + dy * dy + dz * dz = 1 ->
  3 <= r1 -> r1 < r2 -> r2 <= 8 ->
  getPotential this (r1 * dx) (r1 * dy) (r1 * dz)
  < getPotential this (r2 * dx) (r2 * dy) (r2 * dz).
Proof.
  intros HG Hms Hw Hu H1 H12 H2.
  pose proof (unit_component dx dy dz Hu) as Hdy.
  assert (Hfar : forall r, 3 <= r ->
                           Forall (far (r * dx) (r * dy) (r * dz)) (masses this)).
  { intros r Hr. eapply Forall_impl; [|exact Hms]. intros p [Hy _]. unfold far.
    pose proof (ray_far dx dy dz r p Hu Hy Hr). lra. }
  rewrite !getPotential_far by (apply Hfar; lra).
  pose proof (ray_sum_gap this dx dy dz r1 r2 (masses this) Hu HG Hms H1
                ltac:(lra) H2) as Hgap.
  set (S1 := Rsum (map (fun mass => G this * PointMass.m mass
                          / distance (r1 * dx) (r1 * dy) (r1 * dz) mass) (masses this))) in *.
  set (S2 := Rsum (map (fun mass => G this * PointMass.m mass
                          / distance (r2 * dx) (r2 * dy) (r2 * dz) mass) (masses this))) in *.
  set (gm := G this * Rsum (map (@PointMass.m R) (masses this))) in *.
  assert (Hd : 0 < (r2 - r1) * (r1 + r2)) by nra.
  assert (Hs : 0 <= dx * dx + dz * dz <= 1) by nra.
  assert (Hw2 : 0 <= omega this ^ 2) by (simpl; nra).
  assert (Hrot : (r2 * dx) ^ 2 + (r2 * dz) ^ 2
                 = (r1 * dx) ^ 2 + (r1 * dz) ^ 2
                   + (dx * dx + dz * dz) * ((r2 - r1) * (r1 + r2))) by ring.
  rewrite Hrot.
  assert (Hcent : omega this ^ 2 * ((dx * dx + dz * dz) * ((r2 - r1) * (r1 + r2)))
                  <= omega this ^ 2 * ((r2 - r1) * (r1 + r2))).
  { apply Rmult_le_compat_l; [exact Hw2|]. nra. }
  assert (Hkey : 0.5 * (omega this ^ 2 * ((r2 - r1) * (r1 + r2)))
                 < gm * ((r2 - r1) * (r1 + r2) / 6000)).
  { assert (0 < (gm - 3000 * omega this ^ 2) * ((r2 - r1) * (r1 + r2)))
      by (apply Rmult_lt_0_compat; lra).
    lra. }
  set (w2 := omega this ^ 2) in *.
  set (rot1 := (r1 * dx) ^ 2 + (r1 * dz) ^ 2) in *.
  nra.
Qed.

Lemma real_round_trip (this : PhysicsSimulation R) (dx dy dz r0 : R) :
  (forall r r' : R, 3 <= r -> r < r' -> r' <= 8 ->
      getPotential this (r * dx) (r * dy) (r * dz)
      < getPotential this (r' * dx) (r' * dy) (r' * dz)) ->
  3 < r0 < 8 ->
  Rabs (solveRadius this dx dy dz
                    (getPotential this (r0 * dx) (r0 * dy) (r0 * dz)) - r0)
  <= 5 / 2 ^ 16.
Proof.
  intros Hinc Hr0. rewrite solveRadius_midpoint.
  set (t := getPotential this (r0 * dx) (r0 * dy) (r0 * dz)).
  pose proof (bisect_keeps_root this dx dy dz r0 Hinc 15 3 8) as Hroot.
  pose proof (bisect_bounds this dx dy dz t 15 3 8) as Hb.
  cbv zeta in Hroot, Hb. fold t in Hroot.
  destruct Hroot as [Ha Hb']; try lra.
  destruct Hb as (B1 & B2 & B3 & B4); [lra|].
  assert (Hp : 2 ^ 16 = 2 * 2 ^ 15) by (simpl; lra).
  assert (Hp15 : 0 < 2 ^ 15) by (apply pow_lt; lra).
  assert (Hw : 5 / 2 ^ 16 = (8 - 3) / 2 ^ 15 / 2) by (rewrite Hp; field; lra).
  rewrite Hw, <- B4. apply Rabs_le. lra.
Qed.

Lemma masses20_on_axis (radius taper : R) :
  Rabs (radius * taper) <= 2 ->
  Forall (fun p => Rabs (PointMass.y p) <= 2) (calculate20Masses radius taper).
Proof.
  intros Hrt. rewrite calculate20Masses_real. apply Forall_forall. intros p Hp.
  apply in_map_iff in Hp as (i & <- & Hi). apply in_seq in Hi. cbn [PointMass.y].
  pose proof (yNormalized_range i ltac:(lia)) as Hy.
  apply Rle_trans with (Rabs (radius * taper)); [|exact Hrt].
  rewrite Rmult_assoc, Rabs_mult.
  rewrite <- (Rmult_1_l (Rabs (radius * taper))) at 2.
  apply Rmult_le_compat_r; [apply Rabs_pos|]. apply Rabs_le. lra.
Qed.

Lemma masses20_weights (radius taper : R) :
  radius <> 0 ->
  Forall (fun p => 0 <= PointMass.m p) (calculate20Masses radius taper)
  /\ Rsum (map (@PointMass.m R) (calculate20Masses radius taper)) = 10.
Proof.
  intros Hr. pose proof (raw_total_pos radius taper Hr) as Htot.
  assert (Hpos : 0 < Rsum (raw_masses radius taper)) by nra.
  rewrite calculate20Masses_real. split.
  - apply Forall_forall. intros p Hp.
    apply in_map_iff in Hp as (i & <- & Hi). cbn [PointMass.m]. rewrite pole_m.
    apply Rmult_le_pos; [nra|]. apply Rlt_le, Rdiv_lt_0_compat; lra.
  - rewrite map_map. cbn [PointMass.m].
    rewrite <- (map_map (fun i => PointMass.m (pole radius taper i))
                        (fun a => a * (10 / Rsum (raw_masses radius taper)))).
    fold (raw_masses radius taper). rewrite Rsum_scale. field. lra.
Qed.

(** X9.  The masses of [calculate20Masses] stay clear of the bracket of
    the solver: when [|radius·taper| <= 2] (the egg of radius 4 with a
    taper up to 0.5), every point at a radius of 3 or more on a unit ray
    is at distance 1 or more from each of them, so [getPotential] does not
    return the sentinel there and [getGradient] skips no mass. *)
Theorem calculate20Masses_clear_of_bracket
        (this : PhysicsSimulation R) (radius taper dx dy dz r : R) :
  masses this = calculate20Masses radius taper ->
  Rabs (radius * taper) <= 2 ->
  dx * dx + dy * dy + dz * dz = 1 ->
  3 <= r ->
  Forall (fun mass => 1 <= distance (r * dx) (r * dy) (r * dz) mass) (masses this)
  /\ (exists potential : R,
         potential_loop this (r * dx) (r * dy) (r * dz) (masses this) 0
         = Done potential)
  /\ filter (farb (r * dx) (r * dy) (r * dz)) (masses this) = masses this.
Proof.
  intros Hms Hrt Hu Hr.
  assert (Hclear : Forall (fun mass => 1 <= distance (r * dx) (r * dy) (r * dz) mass)
                          (masses this)).
  { rewrite Hms. eapply Forall_impl; [|apply masses20_on_axis; exact Hrt].
    intros p Hp. now apply ray_far. }
  assert (Hfar : Forall (far (r * dx) (r * dy) (r * dz)) (masses this)).
  { eapply Forall_impl; [|exact Hclear]. intros p Hp. unfold far. lra. }
  split; [exact Hclear|]. split.
  - eexists. apply potential_loop_far. exact Hfar.
  - clear Hms Hclear. induction Hfar as [|mass rest Hm _ IH]; [reflexivity|].
    cbn [filter]. apply farb_true_iff in Hm. now rewrite Hm, IH.
Qed.

Lemma calculate20Masses_clear_of_bracket_witness :
  (Rabs (4 * 0.5) <= 2 /\ 1 * 1 + 0 * 0 + 0 * 0 = 1 /\ 3 <= 3)
  /\ Forall (fun mass => 1 <= distance (3 * 1) (3 * 0) (3 * 0) mass)
            (calculate20Masses (T:=R) 4 0.5).
Proof.
  assert (Hrt : Rabs (4 * 0.5) <= 2) by (apply Rabs_le; lra).
  split; [repeat split; try lra; exact Hrt|].
  apply (calculate20Masses_clear_of_bracket
           (set_masses constructor (calculate20Masses 4 0.5)) 4 0.5 1 0 0 3);
    [reflexivity | exact Hrt | lra | lra].
Defined.

(** X10.  With the masses of [calculate20Masses] for a radius other than 0
    and [|radius·taper| <= 2], [G = 1] and a rotation speed of at most
    0.05 either way, the potential is strictly increasing along every unit
    ray over the bracket, and [solveRadius] recovers every radius strictly
    inside the bracket from its potential within [5/2^16]. *)
Theorem calculate20Masses_round_trip
        (this : PhysicsSimulation R) (radius taper dx dy dz r0 : R) :
  masses this = calculate20Masses radius taper ->
  G this = 1 ->
  radius <> 0 ->
  Rabs (radius * taper) <= 2 ->
  -0.05 <= omega this <= 0.05 ->
  dx * dx + dy * dy + dz * dz = 1 ->
  3 < r0 < 8 ->
  (forall r r' : R, 3 <= r -> r < r' -> r' <= 8 ->
      getPotential this (r * dx) (r * dy) (r * dz)
      < getPotential this (r' * dx) (r' * dy) (r' * dz))
  /\ Rabs (solveRadius this dx dy dz
                       (getPotential this (r0 * dx) (r0 * dy) (r0 * dz)) - r0)
     <= 5 / 2 ^ 16.
Proof.
  intros Hms HG Hr Hrt Hw Hu Hr0.
  assert (Hinc : forall r r' : R, 3 <= r -> r < r' -> r' <= 8 ->
      getPotential this (r * dx) (r * dy) (r * dz)
      < getPotential this (r' * dx) (r' * dy) (r' * dz)).
  { intros r r' H3 Hlt H8.
    destruct (masses20_weights radius taper Hr) as [Hm Htot].
    apply axis_masses_increasing; try assumption; try lra.
    - rewrite Hms. apply Forall_forall. intros p Hp. split.
      + pose proof (masses20_on_axis radius taper Hrt) as Hy.
        rewrite Forall_forall in Hy. now apply Hy.
      + rewrite Forall_forall in Hm. now apply Hm.
    - rewrite Hms, Htot, HG. simpl. nra. }
  split; [exact Hinc|]. now apply real_round_trip.
Qed.

Lemma calculate20Masses_round_trip_witness :
  (4 <> 0 /\ Rabs (4 * 0.2) <= 2 /\ -0.05 <= 0.05 <= 0.05
   /\ 1 * 1 + 0 * 0 + 0 * 0 = 1 /\ 3 < 5 < 8)
  /\ Rabs (solveRadius
             {| masses := calculate20Masses 4 0.2; G := 1; omega := 0.05 |} 1 0 0
             (getPotential
                {| masses := calculate20Masses 4 0.2; G := 1; omega := 0.05 |}
                (5 * 1) (5 * 0) (5 * 0)) - 5)
     <= 5 / 2 ^ 16.
Proof.
  assert (Hrt : Rabs (4 * 0.2) <= 2) by (apply Rabs_le; lra).
  split; [repeat split; try lra; exact Hrt|].
  apply (calculate20Masses_round_trip
           {| masses := calculate20Masses 4 0.2; G := 1; omega := 0.05 |} 4 0.2);
    cbn [masses G omega]; try reflexivity; try lra; exact Hrt.
Defined.

(** ** Concrete instances *)

Lemma default_axis_potential (r : R) :
  3 <= r ->
  - (6 / r)
  <= getPotential (T:=R) (set_omega constructor 0) (1 * r) (0 * r) (0 * r)
  <= - (6 / (r + 2)).
Proof.
  intros Hr. rewrite (Rmult_comm 1 r), !(Rmult_comm 0 r).
  rewrite default_ray_potential by lra.
  assert (Hlo : r <= R_sqrt.sqrt (lower_sq 0 r) <= r + 2).
  { split; [apply sqrt_lower | apply sqrt_upper]; unfold lower_sq; nra. }
  assert (Hup : r <= R_sqrt.sqrt (upper_sq 0 r) <= r + 2).
  { split; [apply sqrt_lower | apply sqrt_upper]; unfold upper_sq; nra. }
  set (a := R_sqrt.sqrt (lower_sq 0 r)) in *.
  set (b := R_sqrt.sqrt (upper_sq 0 r)) in *.
  assert (Ha : / (r + 2) <= / a <= / r)
    by (split; apply Rinv_le_contravar; lra).
  assert (Hb : / (r + 2) <= / b <= / r)
    by (split; apply Rinv_le_contravar; lra).
  unfold Rdiv. simpl. lra.
Qed.

Lemma solveRadius_straddles_target_witness :
  (getPotential (T:=R) (set_omega constructor 0) (1 * 3) (0 * 3) (0 * 3) < -1
   /\ -1 <= getPotential (T:=R) (set_omega constructor 0) (1 * 8) (0 * 8) (0 * 8))
  /\ (exists rMin rMax : R,
         solveRadius (set_omega constructor 0) 1 0 0 (-1) = (rMin + rMax) / 2
         /\ rMax - rMin = 5 / 2 ^ 15
         /\ getPotential (set_omega constructor 0) (1 * rMin) (0 * rMin) (0 * rMin) < -1
         /\ -1 <= getPotential (set_omega constructor 0)
                               (1 * rMax) (0 * rMax) (0 * rMax)).
Proof.
  pose proof (default_axis_potential 3 ltac:(lra)) as H3.
  pose proof (default_axis_potential 8 ltac:(lra)) as H8.
  assert (Hlo : getPotential (T:=R) (set_omega constructor 0) (1 * 3) (0 * 3) (0 * 3) < -1)
    by lra.
  assert (Hhi : -1 <= getPotential (T:=R) (set_omega constructor 0) (1 * 8) (0 * 8) (0 * 8))
    by lra.
  split; [split; assumption|].
  exact (proj1 solveRadius_straddles_target (set_omega constructor 0) 1 0 0 (-1) Hlo Hhi).
Defined.

Lemma solveRadius_degenerate_witness :
  ((forall r, 3 <= r <= 8 ->
              -6 <= getPotential (T:=R) (set_omega constructor 0) (1 * r) (0 * r) (0 * r))
   /\ solveRadius (T:=R) (set_omega constructor 0) 1 0 0 (-6) = 3 + 5 / 2 ^ 16)
  /\
  (solveRadius (T:=float) constructor 1%float 0%float 0%float (-2)%float
   = 3.0000762939453125%float
   /\ solveRadius (T:=float) constructor 1%float 0%float 0%float 0%float
      = 7.9999237060546875%float).
Proof.
  assert (Hall : forall r, 3 <= r <= 8 ->
             -6 <= getPotential (T:=R) (set_omega constructor 0) (1 * r) (0 * r) (0 * r)).
  { intros r Hr. pose proof (default_axis_potential r ltac:(lra)) as Hv.
    assert (6 / r <= 6); [|lra].
    unfold Rdiv. rewrite <- (Rmult_1_r 6) at 2. apply Rmult_le_compat_l; [lra|].
    rewrite <- Rinv_1. apply Rinv_le_contravar; lra. }
  split; [split; [exact Hall|]|split].
  - exact (proj1 (proj2 (proj1 solveRadius_degenerate (set_omega constructor 0) 1 0 0 (-6)))
                 Hall).
  - apply (proj2 solveRadius_degenerate constructor 1%float 0%float 0%float (-2)%float).
    vm_compute. reflexivity.
  - apply (proj2 solveRadius_degenerate constructor 1%float 0%float 0%float 0%float).
    vm_compute. reflexivity.
Defined.

Lemma getPotential_range_witness :
  (0 <= G (T:=R) constructor
   /\ Forall (fun p => 0 <= PointMass.m p) (masses (T:=R) constructor))
  /\ getPotential (T:=R) constructor 0 4 0 <= 0.
Proof.
  assert (HG : 0 <= G (T:=R) constructor)
    by (unfold constructor; cbn [G]; rewrite lit_R_0; lra).
  assert (Hm : Forall (fun p => 0 <= PointMass.m p) (masses (T:=R) constructor)).
  { unfold constructor; cbn [masses].
    apply Forall_cons; [|apply Forall_cons; [|apply Forall_nil]];
      cbn [PointMass.m]; rewrite lit_R_0; lra. }
  split; [split; assumption|].
  exact (proj1 (getPotential_range constructor 0 4 0 HG Hm)).
Defined.

(** ** [getGradient] is the gradient of [getPotential] *)

Lemma derivable_pt_lim_value (f : R -> R) (x l l' : R) :
  l = l' -> derivable_pt_lim f x l -> derivable_pt_lim f x l'.
Proof. now intros ->. Qed.

(** The derivative of a shifted square, [(t - a)² + c]. *)
Lemma shifted_square_derivative (a c x : R) :
  derivable_pt_lim (fun t => (t - a) * (t - a) + c) x (2 * (x - a)).
Proof.
  intros eps Heps. exists (mkposreal eps Heps). intros h Hh Hlt. cbn in Hlt.
  replace (((x + h - a) * (x + h - a) + c - ((x - a) * (x - a) + c)) / h - 2 * (x - a))
    with h by (field; exact Hh).
  exact Hlt.
Qed.

(** The derivative of one gravity term along a coordinate. *)
Lemma gravity_term_derivative (gm a c x : R) :
  0 < (x - a) * (x - a) + c ->
  derivable_pt_lim (fun t => gm / R_sqrt.sqrt ((t - a) * (t - a) + c)) x
                   (- (gm / R_sqrt.sqrt ((x - a) * (x - a) + c) ^ 3 * (x - a))).
Proof.
  intros Hq.
  set (q := fun t : R => (t - a) * (t - a) + c).
  pose proof (sqrt_lt_R0 _ Hq) as Hs.
  pose proof (sqrt_sqrt ((x - a) * (x - a) + c) (Rlt_le _ _ Hq)) as Hss.
  assert (Hroot : derivable_pt_lim (comp R_sqrt.sqrt q) x
                                   (/ (2 * R_sqrt.sqrt (q x)) * (2 * (x - a)))).
  { apply derivable_pt_lim_comp; [apply shifted_square_derivative|].
    apply derivable_pt_lim_sqrt. exact Hq. }
  pose proof (derivable_pt_lim_div (fct_cte gm) (comp R_sqrt.sqrt q) x _ _
                (derivable_pt_lim_const gm x) Hroot) as Hdiv.
  unfold comp, fct_cte, q in Hdiv. specialize (Hdiv ltac:(lra)).
  eapply derivable_pt_lim_value; [|exact Hdiv].
  unfold Rsqr. set (s := R_sqrt.sqrt ((x - a) * (x - a) + c)) in *.
  field. lra.
Qed.

Lemma derivable_pt_lim_Rsum {A : Type} (f : A -> R -> R) (l : A -> R)
      (ms : list A) (x : R) :
  Forall (fun m => derivable_pt_lim (f m) x (l m)) ms ->
  derivable_pt_lim (fun t => Rsum (map (fun m => f m t) ms)) x (Rsum (map l ms)).
Proof.
  induction 1 as [|m ms Hm _ IH]; cbn [map].
  - apply (derivable_pt_lim_const 0).
  - apply (derivable_pt_lim_plus (f m) _ x _ _ Hm IH).
Qed.

Lemma distance_pos (x y z : R) (mass : PointMass.t R) :
  0 < distance x y z mass ->
  0 < x * x + (y - PointMass.y mass) * (y - PointMass.y mass) + z * z.
Proof.
  unfold distance. intros Hd.
  destruct (Rle_lt_dec (x * x + (y - PointMass.y mass) * (y - PointMass.y mass) + z * z) 0)
    as [Hle | Hlt]; [|exact Hlt].
  rewrite sqrt_neg_0 in Hd by exact Hle. lra.
Qed.

Lemma derivable_pt_lim_eq (f g : R -> R) (x l l' : R) :
  (forall t, f t = g t) -> l = l' ->
  derivable_pt_lim f x l -> derivable_pt_lim g x l'.
Proof.
  intros Hfg <- Hf. exact (derivable_pt_lim_ext f g x l Hfg Hf).
Qed.

Lemma rotation_derivative (w x c : R) :
  derivable_pt_lim (fun t => 0.5 * w ^ 2 * (t ^ 2 + c)) x (w ^ 2 * x).
Proof.
  pose proof (derivable_pt_lim_scal _ (0.5 * w ^ 2) x _
                (shifted_square_derivative 0 c x)) as Hd.
  refine (derivable_pt_lim_eq _ _ _ _ _ _ _ Hd).
  - intros t. unfold mult_real_fct. ring.
  - lra.
Qed.

Lemma Rsum_opp {A : Type} (f : A -> R) (ms : list A) :
  Rsum (map (fun m => - f m) ms) = - Rsum (map f ms).
Proof.
  induction ms as [|m ms IH]; cbn [map]; [unfold Rsum; simpl; lra|].
  rewrite !Rsum_cons, IH. lra.
Qed.

Lemma closed_form_dx (this : PhysicsSimulation R) (x y z : R) :
  Forall (fun mass => 0 < distance x y z mass) (masses this) ->
  derivable_pt_lim (fun t => closed_form this t y z) x
    (Rsum (map (fun mass => pull this x y z mass * x) (masses this))
     - omega this ^ 2 * x).
Proof.
  intros Hpos.
  assert (Hsum : derivable_pt_lim
                   (fun t => Rsum (map (fun mass => G this * PointMass.m mass
                                                    / distance t y z mass) (masses this)))
                   x (Rsum (map (fun mass => - (pull this x y z mass * x)) (masses this)))).
  { apply (derivable_pt_lim_Rsum
             (fun mass t => G this * PointMass.m mass / distance t y z mass)).
    eapply Forall_impl; [|exact Hpos]. intros mass Hd. apply distance_pos in Hd.
    set (c := (y - PointMass.y mass) * (y - PointMass.y mass) + z * z).
    assert (Hq : 0 < (x - 0) * (x - 0) + c) by (unfold c; lra).
    refine (derivable_pt_lim_eq _ _ _ _ _ _ _
              (gravity_term_derivative (G this * PointMass.m mass) 0 c x Hq)).
    - intros t. unfold distance, c. do 2 f_equal. ring.
    - unfold pull, distance, c.
      replace ((x - 0) * (x - 0) + ((y - PointMass.y mass) * (y - PointMass.y mass) + z * z))
        with (x * x + (y - PointMass.y mass) * (y - PointMass.y mass) + z * z) by ring.
      ring. }
  rewrite Rsum_opp in Hsum.
  pose proof (derivable_pt_lim_minus _ _ x _ _
                (derivable_pt_lim_opp _ x _ Hsum)
                (rotation_derivative (omega this) x (z ^ 2))) as Hd.
  refine (derivable_pt_lim_eq _ _ _ _ _ _ _ Hd).
  - intros t. reflexivity.
  - lra.
Qed.

Lemma closed_form_dy (this : PhysicsSimulation R) (x y z : R) :
  Forall (fun mass => 0 < distance x y z mass) (masses this) ->
  derivable_pt_lim (fun t => closed_form this x t z) y
    (Rsum (map (fun mass => pull this x y z mass * (y - PointMass.y mass))
               (masses this))).
Proof.
  intros Hpos.
  assert (Hsum : derivable_pt_lim
                   (fun t => Rsum (map (fun mass => G this * PointMass.m mass
                                                    / distance x t z mass) (masses this)))
                   y (Rsum (map (fun mass => - (pull this x y z mass
                                                * (y - PointMass.y mass)))
                                (masses this)))).
  { apply (derivable_pt_lim_Rsum
             (fun mass t => G this * PointMass.m mass / distance x t z mass)).
    eapply Forall_impl; [|exact Hpos]. intros mass Hd. apply distance_pos in Hd.
    set (c := x * x + z * z).
    assert (Hq : 0 < (y - PointMass.y mass) * (y - PointMass.y mass) + c)
      by (unfold c; lra).
    refine (derivable_pt_lim_eq _ _ _ _ _ _ _
              (gravity_term_derivative (G this * PointMass.m mass)
                                       (PointMass.y mass) c y Hq)).
    - intros t. unfold distance, c. do 2 f_equal. ring.
    - unfold pull, distance, c.
      replace ((y - PointMass.y mass) * (y - PointMass.y mass) + (x * x + z * z))
        with (x * x + (y - PointMass.y mass) * (y - PointMass.y mass) + z * z) by ring.
      ring. }
  rewrite Rsum_opp in Hsum.
  pose proof (derivable_pt_lim_minus _ _ y _ _
                (derivable_pt_lim_opp _ y _ Hsum)
                (derivable_pt_lim_const (0.5 * omega this ^ 2 * (x ^ 2 + z ^ 2)) y))
    as Hd.
  refine (derivable_pt_lim_eq _ _ _ _ _ _ _ Hd).
  - intros t. reflexivity.
  - lra.
Qed.

Lemma closed_form_dz (this : PhysicsSimulation R) (x y z : R) :
  Forall (fun mass => 0 < distance x y z mass) (masses this) ->
  derivable_pt_lim (fun t => closed_form this x y t) z
    (Rsum (map (fun mass => pull this x y z mass * z) (masses this))
     - omega this ^ 2 * z).
Proof.
  intros Hpos.
  assert (Hsum : derivable_pt_lim
                   (fun t => Rsum (map (fun mass => G this * PointMass.m mass
                                                    / distance x y t mass) (masses this)))
                   z (Rsum (map (fun mass => - (pull this x y z mass * z)) (masses this)))).
  { apply (derivable_pt_lim_Rsum
             (fun mass t => G this * PointMass.m mass / distance x y t mass)).
    eapply Forall_impl; [|exact Hpos]. intros mass Hd. apply distance_pos in Hd.
    set (c := x * x + (y - PointMass.y mass) * (y - PointMass.y mass)).
    assert (Hq : 0 < (z - 0) * (z - 0) + c) by (unfold c; lra).
    refine (derivable_pt_lim_eq _ _ _ _ _ _ _
              (gravity_term_derivative (G this * PointMass.m mass) 0 c z Hq)).
    - intros t. unfold distance, c. do 2 f_equal. ring.
    - unfold pull, distance, c.
      replace ((z - 0) * (z - 0) + (x * x + (y - PointMass.y mass) * (y - PointMass.y mass)))
        with (x * x + (y - PointMass.y mass) * (y - PointMass.y mass) + z * z) by ring.
      ring. }
  rewrite Rsum_opp in Hsum.
  pose proof (derivable_pt_lim_minus _ _ z _ _
                (derivable_pt_lim_opp _ z _ Hsum)
                (rotation_derivative (omega this) z (x ^ 2))) as Hd.
  refine (derivable_pt_lim_eq _ _ _ _ _ _ _ Hd).
  - intros t. unfold closed_form, minus_fct, opp_fct. ring.
  - lra.
Qed.

Lemma two_squares_nonneg (a b : R) : 0 <= a * a + b * b.
Proof. nra. Qed.

Lemma sqrt_shift (a c e : R) :
  0 <= c ->
  R_sqrt.sqrt (a * a + c) - Rabs e <= R_sqrt.sqrt ((a + e) * (a + e) + c).
Proof.
  intros Hc.
  assert (Hq : 0 <= a * a + c) by nra.
  pose proof (sqrt_pos (a * a + c)) as HD.
  pose proof (sqrt_sqrt _ Hq) as HDD.
  set (D := R_sqrt.sqrt (a * a + c)) in *.
  pose proof (Rabs_pos e) as He.
  assert (He2 : Rabs e * Rabs e = e * e) by (unfold Rabs; destruct (Rcase_abs e); ring).
  assert (Hae : - (D * Rabs e) <= a * e).
  { assert (Ha : - D <= a <= D) by (split; nra).
    assert (Heb : - Rabs e <= e <= Rabs e)
      by (unfold Rabs; destruct (Rcase_abs e); lra).
    destruct (Rle_lt_dec 0 e) as [Hpos | Hneg].
    - assert (Rabs e = e) by (apply Rabs_right; lra). nra.
    - assert (Rabs e = - e) by (apply Rabs_left; lra). nra. }
  destruct (Rle_lt_dec (D - Rabs e) 0) as [Hsmall | Hbig].
  - pose proof (sqrt_pos ((a + e) * (a + e) + c)). lra.
  - apply sqrt_lower; [lra|]. nra.
Qed.

Lemma distance_shift_x (x y z e : R) (mass : PointMass.t R) :
  distance x y z mass - Rabs e <= distance (x + e) y z mass.
Proof.
  unfold distance.
  set (c := (y - PointMass.y mass) * (y - PointMass.y mass) + z * z).
  replace (x * x + (y - PointMass.y mass) * (y - PointMass.y mass) + z * z)
    with (x * x + c) by (unfold c; ring).
  replace ((x + e) * (x + e) + (y - PointMass.y mass) * (y - PointMass.y mass) + z * z)
    with ((x + e) * (x + e) + c) by (unfold c; ring).
  apply sqrt_shift. unfold c. apply two_squares_nonneg.
Qed.

Lemma distance_shift_y (x y z e : R) (mass : PointMass.t R) :
  distance x y z mass - Rabs e <= distance x (y + e) z mass.
Proof.
  unfold distance.
  set (a := y - PointMass.y mass). set (c := x * x + z * z).
  replace (x * x + a * a + z * z) with (a * a + c) by (unfold c; ring).
  replace (x * x + (y + e - PointMass.y mass) * (y + e - PointMass.y mass) + z * z)
    with ((a + e) * (a + e) + c) by (unfold a, c; ring).
  apply sqrt_shift. unfold c. apply two_squares_nonneg.
Qed.

Lemma distance_shift_z (x y z e : R) (mass : PointMass.t R) :
  distance x y z mass - Rabs e <= distance x y (z + e) mass.
Proof.
  unfold distance.
  set (c := x * x + (y - PointMass.y mass) * (y - PointMass.y mass)).
  replace (c + z * z) with (z * z + c) by ring.
  replace (c + (z + e) * (z + e)) with ((z + e) * (z + e) + c) by ring.
  apply sqrt_shift. unfold c. apply two_squares_nonneg.
Qed.

Lemma singularity_margin (x y z : R) (ms : list (PointMass.t R)) :
  Forall (fun mass => 0.1 < distance x y z mass) ms ->
  exists delta : R,
    0 < delta /\ Forall (fun mass => 0.1 + delta <= distance x y z mass) ms.
Proof.
  induction 1 as [|mass rest Hm _ (delta & Hd & IH)].
  - exists 1. split; [lra | constructor].
  - exists (Rmin delta (distance x y z mass - 0.1)). split.
    + apply Rmin_glb_lt; lra.
    + constructor.
      * pose proof (Rmin_r delta (distance x y z mass - 0.1)). lra.
      * eapply Forall_impl; [|exact IH]. intros p Hp. cbv beta in *.
        pose proof (Rmin_l delta (distance x y z mass - 0.1)). lra.
Qed.

Lemma all_far_contribute (x y z : R) (ms : list (PointMass.t R)) :
  Forall (far x y z) ms -> filter (farb x y z) ms = ms.
Proof.
  induction 1 as [|mass rest Hm _ IH]; [reflexivity|].
  cbn [filter]. apply farb_true_iff in Hm. now rewrite Hm, IH.
Qed.

(** X11.  Wherever every mass is farther than 0.1, [getGradient] is the
    gradient of [getPotential]: its three components are the partial
    derivatives of the potential in x, y and z. *)
Theorem getGradient_is_the_gradient (this : PhysicsSimulation R) (x y z : R) :
  Forall (fun mass => 0.1 < distance x y z mass) (masses this) ->
  derivable_pt_lim (fun t => getPotential this t y z) x
                   (THREE.x (getGradient this x y z))
  /\ derivable_pt_lim (fun t => getPotential this x t z) y
                      (THREE.y (getGradient this x y z))
  /\ derivable_pt_lim (fun t => getPotential this x y t) z
                      (THREE.z (getGradient this x y z)).
Proof.
  intros Hclear.
  destruct (singularity_margin x y z (masses this) Hclear) as (delta & Hdelta & Hmargin).
  assert (Hpos : Forall (fun mass => 0 < distance x y z mass) (masses this)).
  { eapply Forall_impl; [|exact Hclear]. intros p Hp. cbv beta in *. lra. }
  assert (Hfar : Forall (far x y z) (masses this)).
  { eapply Forall_impl; [|exact Hclear]. intros p Hp. unfold far. lra. }
  rewrite getGradient_formula. unfold gradient_formula, contributing.
  rewrite (all_far_contribute x y z (masses this) Hfar). cbn [THREE.x THREE.y THREE.z].
  assert (Hnear_by : forall t c : R, c - delta < t < c + delta -> Rabs (t - c) < delta).
  { intros t c Ht. apply Rabs_def1; lra. }
  split; [|split].
  - apply (derivable_pt_lim_locally_ext (fun t => closed_form this t y z) _ x
             (x - delta) (x + delta)); [lra| |now apply closed_form_dx].
    intros t Ht. symmetry. apply getPotential_far.
    eapply Forall_impl; [|exact Hmargin]. intros p Hp. unfold far. cbv beta in Hp.
    pose proof (distance_shift_x x y z (t - x) p) as Hs.
    replace (x + (t - x)) with t in Hs by ring.
    pose proof (Hnear_by t x Ht). lra.
  - apply (derivable_pt_lim_locally_ext (fun t => closed_form this x t z) _ y
             (y - delta) (y + delta)); [lra| |now apply closed_form_dy].
    intros t Ht. symmetry. apply getPotential_far.
    eapply Forall_impl; [|exact Hmargin]. intros p Hp. unfold far. cbv beta in Hp.
    pose proof (distance_shift_y x y z (t - y) p) as Hs.
    replace (y + (t - y)) with t in Hs by ring.
    pose proof (Hnear_by t y Ht). lra.
  - apply (derivable_pt_lim_locally_ext (fun t => closed_form this x y t) _ z
             (z - delta) (z + delta)); [lra| |now apply closed_form_dz].
    intros t Ht. symmetry. apply getPotential_far.
    eapply Forall_impl; [|exact Hmargin]. intros p Hp. unfold far. cbv beta in Hp.
    pose proof (distance_shift_z x y z (t - z) p) as Hs.
    replace (z + (t - z)) with t in Hs by ring.
    pose proof (Hnear_by t z Ht). lra.
Qed.

Lemma getGradient_is_the_gradient_witness :
  Forall (fun mass => 0.1 < distance 0 4 0 mass) (masses (T:=R) constructor)
  /\ derivable_pt_lim (fun t => getPotential (T:=R) constructor 0 t 0) 4
                      (THREE.y (getGradient (T:=R) constructor 0 4 0)).
Proof.
  assert (Hclear : Forall (fun mass => 0.1 < distance 0 4 0 mass)
                          (masses (T:=R) constructor)).
  { unfold constructor; cbn [masses].
    apply Forall_cons; [|apply Forall_cons; [|apply Forall_nil]];
      unfold distance; cbn [PointMass.y]; real_arith;
      rewrite sqrt_sq_vertical by lra; lra. }
  split; [exact Hclear|].
  exact (proj1 (proj2 (getGradient_is_the_gradient constructor 0 4 0 Hclear))).
Defined.

Lemma derivable_pt_lim_locally_const (f : R -> R) (x c delta : R) :
  0 < delta ->
  (forall t, x - delta < t < x + delta -> f t = c) ->
  derivable_pt_lim f x 0.
Proof.
  intros Hd Hc.
  apply (derivable_pt_lim_locally_ext (fct_cte c) f x (x - delta) (x + delta));
    [lra| |apply derivable_pt_lim_const].
  intros t Ht. symmetry. now apply Hc.
Qed.

(** X12.  Strictly within the singularity radius of a mass the potential
    is the constant -10000 all around the point, so its partial
    derivatives are 0 there, whatever [getGradient] returns. *)
Theorem getPotential_flat_in_singularity (this : PhysicsSimulation R) (x y z : R) :
  Exists (fun mass => distance x y z mass < 0.1) (masses this) ->
  derivable_pt_lim (fun t => getPotential this t y z) x 0
  /\ derivable_pt_lim (fun t => getPotential this x t z) y 0
  /\ derivable_pt_lim (fun t => getPotential this x y t) z 0.
Proof.
  intros Hnear.
  assert (Hmargin : exists delta, 0 < delta
            /\ Exists (fun mass => distance x y z mass + delta <= 0.1) (masses this)).
  { induction Hnear as [mass rest Hm | mass rest _ (delta & Hd & IH)].
    - exists (0.1 - distance x y z mass). split; [lra|]. apply Exists_cons_hd. lra.
    - exists delta. split; [exact Hd|]. now apply Exists_cons_tl. }
  destruct Hmargin as (delta & Hdelta & Hm).
  assert (Hnear_by : forall t c : R, c - delta < t < c + delta -> Rabs (c - t) < delta).
  { intros t c Ht. apply Rabs_def1; lra. }
  assert (Hconst : forall x' y' z',
             Exists (near x' y' z') (masses this) ->
             getPotential this x' y' z' = -10000).
  { intros x' y' z' Hn. unfold getPotential. now rewrite potential_loop_near. }
  split; [|split].
  - apply (derivable_pt_lim_locally_const _ x (-10000) delta Hdelta).
    intros t Ht. apply Hconst. eapply Exists_impl; [|exact Hm].
    intros p Hp. unfold near. cbv beta in Hp.
    pose proof (distance_shift_x t y z (x - t) p) as Hs.
    replace (t + (x - t)) with x in Hs by ring.
    pose proof (Hnear_by t x Ht). lra.
  - apply (derivable_pt_lim_locally_const _ y (-10000) delta Hdelta).
    intros t Ht. apply Hconst. eapply Exists_impl; [|exact Hm].
    intros p Hp. unfold near. cbv beta in Hp.
    pose proof (distance_shift_y x t z (y - t) p) as Hs.
    replace (t + (y - t)) with y in Hs by ring.
    pose proof (Hnear_by t y Ht). lra.
  - apply (derivable_pt_lim_locally_const _ z (-10000) delta Hdelta).
    intros t Ht. apply Hconst. eapply Exists_impl; [|exact Hm].
    intros p Hp. unfold near. cbv beta in Hp.
    pose proof (distance_shift_z x y t (z - t) p) as Hs.
    replace (t + (z - t)) with z in Hs by ring.
    pose proof (Hnear_by t z Ht). lra.
Qed.

Lemma getPotential_flat_in_singularity_witness :
  Exists (fun mass => distance 0 2 0 mass < 0.1) (masses (T:=R) constructor)
  /\ derivable_pt_lim (fun t => getPotential (T:=R) constructor 0 t 0) 2 0.
Proof.
  assert (Hnear : Exists (fun mass => distance 0 2 0 mass < 0.1)
                         (masses (T:=R) constructor)).
  { unfold constructor; cbn [masses]. apply Exists_cons_tl, Exists_cons_hd.
    unfold distance; cbn [PointMass.y]; real_arith.
    rewrite sqrt_sq_vertical by lra. lra. }
  split; [exact Hnear|].
  exact (proj1 (proj2 (getPotential_flat_in_singularity constructor 0 2 0 Hnear))).
Defined.

(** X13.  The solver's assumption, in terms of the configuration: with a
    gravitational constant and masses that are not negative, every mass at
    a height between -2 and 2, and [3000·omega² < G·Σm_i], the potential is
    strictly increasing along every unit ray over the bracket, and
    [solveRadius] recovers every radius strictly inside the bracket from
    its potential within [5/2^16]. *)
Theorem axis_masses_round_trip
        (this : PhysicsSimulation R) (dx dy dz r0 : R) :
  0 <= G this ->
  Forall (fun p => Rabs (PointMass.y p) <= 2 /\ 0 <= PointMass.m p) (masses this) ->
  3000 * omega this ^ 2 < G this * Rsum (map (@PointMass.m R) (masses this)) ->
  dx * dx + dy * dy + dz * dz = 1 ->
  3 < r0 < 8 ->
  (forall r r' : R, 3 <= r -> r < r' -> r' <= 8 ->
      getPotential this (r * dx) (r * dy) (r * dz)
      < getPotential this (r' * dx) (r' * dy) (r' * dz))
  /\ Rabs (solveRadius this dx dy dz
                       (getPotential this (r0 * dx) (r0 * dy) (r0 * dz)) - r0)
     <= 5 / 2 ^ 16.
Proof.
  intros HG Hms Hw Hu Hr0.
  assert (Hinc : forall r r' : R, 3 <= r -> r < r' -> r' <= 8 ->
      getPotential this (r * dx) (r * dy) (r * dz)
      < getPotential this (r' * dx) (r' * dy) (r' * dz)).
  { intros r r' H3 Hlt H8. now apply axis_masses_increasing. }
  split; [exact Hinc|]. now apply real_round_trip.
Qed.

(** The configuration of sphere.js: one mass 8 at the origin,
    [omega = 0.02]. *)
Lemma axis_masses_round_trip_witness :
  let sim := {| masses := [PointMass.mk R 0 8]; G := 1; omega := 0.02 |} in
  (0 <= G sim
   /\ Forall (fun p => Rabs (PointMass.y p) <= 2 /\ 0 <= PointMass.m p) (masses sim)
   /\ 3000 * omega sim ^ 2 < G sim * Rsum (map (@PointMass.m R) (masses sim))
   /\ 1 * 1 + 0 * 0 + 0 * 0 = 1 /\ 3 < 4 < 8)
  /\ Rabs (solveRadius sim 1 0 0 (getPotential sim (4 * 1) (4 * 0) (4 * 0)) - 4)
     <= 5 / 2 ^ 16.
Proof.
  intros sim.
  assert (HG : 0 <= G sim) by (cbn; lra).
  assert (Hms : Forall (fun p => Rabs (PointMass.y p) <= 2 /\ 0 <= PointMass.m p)
                       (masses sim)).
  { cbn [masses sim]. apply Forall_cons; [|apply Forall_nil]. cbn [PointMass.y PointMass.m].
    split; [rewrite Rabs_R0|]; lra. }
  assert (Hw : 3000 * omega sim ^ 2 < G sim * Rsum (map (@PointMass.m R) (masses sim))).
  { cbn [masses sim omega G map PointMass.m]. rewrite Rsum_cons. unfold Rsum; simpl. lra. }
  split; [repeat split; try assumption; lra|].
  apply (axis_masses_round_trip sim 1 0 0 4 HG Hms Hw); lra.
Defined.
(** ** updateWaterSurface: the radii and the disk flag *)

Section WaterSurface.
Context {T : Type} `{Number T}.

Lemma radius_loop_map (sim : PhysicsSimulation T) (waterPotential : T)
      (directions : list (THREE.Vector3 T)) (radii : list T) (hasDisk : bool) :
  radius_loop sim waterPotential directions radii hasDisk
  = (radii
     ++ map (fun p => solveRadius sim (THREE.x p) (THREE.y p) (THREE.z p) waterPotential)
            directions,
     existsb (fun p => ltb (lit 6 0)
                           (solveRadius sim (THREE.x p) (THREE.y p) (THREE.z p)
                                        waterPotential)) directions
     || hasDisk).
Proof.
  revert radii hasDisk.
  induction directions as [|p rest IH]; intros radii hasDisk;
    cbn [radius_loop map existsb].
  - now rewrite app_nil_r.
  - rewrite IH, <- app_assoc. cbn [app]. f_equal.
    generalize (ltb (lit 6 0)
                    (solveRadius sim (THREE.x p) (THREE.y p) (THREE.z p) waterPotential)).
    generalize (existsb
                  (fun p0 => ltb (lit 6 0)
                                 (solveRadius sim (THREE.x p0) (THREE.y p0) (THREE.z p0)
                                              waterPotential)) rest).
    intros b c. now destruct b, c, hasDisk.
Qed.

End WaterSurface.

Lemma binary64_ltb_6 (r : float) : ltb (lit 6 0) r = PrimFloat.ltb 6%float r.
Proof. reflexivity. Qed.

(** X14.  The first loop of [updateWaterSurface] gives one radius per
    vertex, each within the bracket [3, 8], and raises [hasDisk] exactly
    when one of them exceeds 6: over the reals and in binary64. *)
Theorem water_radii_and_disk :
  (forall (sim : PhysicsSimulation R) (waterPotential : R)
          (directions : list (THREE.Vector3 R)),
      let radii := fst (radius_loop sim waterPotential directions [] false) in
      let hasDisk := snd (radius_loop sim waterPotential directions [] false) in
      length radii = length directions
      /\ Forall (fun r => 3 <= r <= 8) radii
      /\ (hasDisk = true <-> Exists (fun r => 6 < r) radii))
  /\
  (forall (sim : PhysicsSimulation float) (waterPotential : float)
          (directions : list (THREE.Vector3 float)),
      let radii := fst (radius_loop sim waterPotential directions [] false) in
      let hasDisk := snd (radius_loop sim waterPotential directions [] false) in
      length radii = length directions
      /\ Forall (fun r => PrimFloat.leb 3%float r = true
                          /\ PrimFloat.leb r 8%float = true) radii
      /\ (hasDisk = true <-> Exists (fun r => PrimFloat.ltb 6%float r = true) radii)).
Proof.
  split.
  - intros sim t dirs. cbv zeta. rewrite radius_loop_map. cbn [fst snd app].
    rewrite orb_false_r. split; [apply length_map|]. split.
    + apply Forall_forall. intros r Hr. apply in_map_iff in Hr as (p & <- & _).
      apply real_solveRadius_in_bracket.
    + rewrite existsb_exists, Exists_exists. split.
      * intros (p & Hp & Hlt). eexists. split; [apply in_map; exact Hp|].
        rewrite lit_R_0 in Hlt. apply Rltb_true_iff in Hlt. exact Hlt.
      * intros (r & Hr & Hlt). apply in_map_iff in Hr as (p & <- & Hp).
        exists p. split; [exact Hp|]. rewrite lit_R_0. apply Rltb_true_iff. exact Hlt.
  - intros sim t dirs. cbv zeta. rewrite radius_loop_map. cbn [fst snd app].
    rewrite orb_false_r. split; [apply length_map|]. split.
    + apply Forall_forall. intros r Hr. apply in_map_iff in Hr as (p & <- & _).
      apply binary64_solveRadius_in_bracket.
    + rewrite existsb_exists, Exists_exists. split.
      * intros (p & Hp & Hlt). eexists. split; [apply in_map; exact Hp|].
        rewrite binary64_ltb_6 in Hlt. exact Hlt.
      * intros (r & Hr & Hlt). apply in_map_iff in Hr as (p & <- & Hp).
        exists p. split; [exact Hp|]. rewrite binary64_ltb_6. exact Hlt.
Qed.

(** X15.  Raising the sea level never lowers a vertex nor removes the
    disk: for two water potentials [t1 <= t2] on the same configuration and
    vertices, each radius for [t1] is at most the radius for [t2], and
    [hasDisk] for [t1] implies [hasDisk] for [t2]; over the reals and in
    binary64. *)
Theorem water_level_monotone :
  (forall (sim : PhysicsSimulation R) (t1 t2 : R)
          (directions : list (THREE.Vector3 R)),
      t1 <= t2 ->
      Forall2 Rle (fst (radius_loop sim t1 directions [] false))
                  (fst (radius_loop sim t2 directions [] false))
      /\ (snd (radius_loop sim t1 directions [] false) = true ->
          snd (radius_loop sim t2 directions [] false) = true))
  /\
  (forall (sim : PhysicsSimulation float) (t1 t2 : float)
          (directions : list (THREE.Vector3 float)),
      PrimFloat.leb t1 t2 = true ->
      Forall2 (fun r1 r2 => PrimFloat.leb r1 r2 = true)
              (fst (radius_loop sim t1 directions [] false))
              (fst (radius_loop sim t2 directions [] false))
      /\ (snd (radius_loop sim t1 directions [] false) = true ->
          snd (radius_loop sim t2 directions [] false) = true)).
Proof.
  split.
  - intros sim t1 t2 dirs Ht. rewrite !radius_loop_map. cbn [fst snd app].
    rewrite !orb_false_r. split.
    + induction dirs as [|p rest IH]; cbn [map]; constructor; [|exact IH].
      apply real_solveRadius_monotone_in_target. exact Ht.
    + rewrite !existsb_exists. intros (p & Hp & Hlt). exists p. split; [exact Hp|].
      rewrite lit_R_0 in *. apply Rltb_true_iff in Hlt. apply Rltb_true_iff.
      pose proof (real_solveRadius_monotone_in_target
                    sim (THREE.x p) (THREE.y p) (THREE.z p) t1 t2 Ht) as Hm.
      lra.
  - intros sim t1 t2 dirs Ht. rewrite !radius_loop_map. cbn [fst snd app].
    rewrite !orb_false_r. split.
    + induction dirs as [|p rest IH]; cbn [map]; constructor; [|exact IH].
      apply binary64_solveRadius_monotone_in_target. exact Ht.
    + rewrite !existsb_exists. intros (p & Hp & Hlt). exists p. split; [exact Hp|].
      rewrite binary64_ltb_6 in *.
      refine (binary64_ltb_leb_trans _ _ _ Hlt _).
      apply binary64_solveRadius_monotone_in_target. exact Ht.
Qed.

Lemma water_level_monotone_witness :
  -2 <= -1
  /\ Forall2 Rle
       (fst (radius_loop (T:=R) constructor (-2) [THREE.mkVector3 R 1 0 0] [] false))
       (fst (radius_loop (T:=R) constructor (-1) [THREE.mkVector3 R 1 0 0] [] false)).
Proof.
  split; [lra|].
  apply (proj1 water_level_monotone constructor (-2) (-1) [THREE.mkVector3 R 1 0 0]).
  lra.
Defined.

(** ** updateWaterSurface: the cut of the mesh *)

Lemma write_length (indices : list nat) (i : nat) (v : option nat) :
  length (write indices i v) = length indices.
Proof.
  revert i. induction indices as [|k rest IH]; intros [|i]; destruct v; cbn [write length];
    try reflexivity; now rewrite IH.
Qed.

Lemma cut_loop_length (originalIndices : list nat) (radiusList : list R)
      (n i : nat) (indices : list nat) :
  length (cut_loop originalIndices radiusList n i indices) = length indices.
Proof.
  revert i indices. induction n as [|n IH]; intros i indices; cbn [cut_loop].
  - reflexivity.
  - destruct (i <? length originalIndices)%nat; [|reflexivity].
    destruct (exceeds _); rewrite IH, !write_length; reflexivity.
Qed.

Lemma write_app (out rest : list nat) (i : nat) (v : option nat) :
  write (out ++ rest) (length out + i) v = out ++ write rest i v.
Proof.
  induction out as [|k out IH]; cbn [app length Nat.add write].
  - reflexivity.
  - now rewrite IH.
Qed.

Lemma nth_error_app_plus (out rest : list nat) (i : nat) :
  nth_error (out ++ rest) (length out + i) = nth_error rest i.
Proof.
  induction out as [|k out IH]; cbn [app length Nat.add nth_error]; auto.
Qed.

Lemma write_app_0 (out rest : list nat) (v : option nat) :
  write (out ++ rest) (length out) v = out ++ write rest 0 v.
Proof. rewrite <- (Nat.add_0_r (length out)) at 1. apply write_app. Qed.

Lemma nth_error_app_0 (out rest : list nat) :
  nth_error (out ++ rest) (length out) = nth_error rest 0.
Proof. rewrite <- (Nat.add_0_r (length out)) at 1. apply nth_error_app_plus. Qed.

Lemma flatten_length (triangles : list (nat * nat * nat)) :
  length (flatten triangles) = (3 * length triangles)%nat.
Proof.
  induction triangles as [|[[a b] c] rest IH]; [reflexivity|].
  unfold flatten in *. cbn [flat_map app length]. rewrite IH. lia.
Qed.

Lemma flatten_app (l1 l2 : list (nat * nat * nat)) :
  flatten (l1 ++ l2) = flatten l1 ++ flatten l2.
Proof. apply flat_map_app. Qed.

Lemma cut_triangle_length (radiusList : list R) (t : nat * nat * nat) :
  length (cut_triangle radiusList t) = 3%nat.
Proof.
  destruct t as [[a b] c]. unfold cut_triangle. now destruct (exceeds _).
Qed.

Lemma cut_loop_triangles (radiusList : list R) (rest : list (nat * nat * nat)) :
  forall (done : list (nat * nat * nat)) (n : nat) (out indices : list nat),
    length out = (3 * length done)%nat ->
    length indices = (3 * length rest)%nat ->
    (length rest <= n)%nat ->
    cut_loop (flatten done ++ flatten rest) radiusList n (3 * length done) (out ++ indices)
    = out ++ flat_map (cut_triangle radiusList) rest.
Proof.
  induction rest as [|[[a b] c] rest IH]; intros done n out indices Hout Hidx Hn.
  - destruct indices; [|discriminate]. cbn [flat_map].
    destruct n as [|n]; cbn [cut_loop]; [reflexivity|].
    replace (3 * length done <? length (flatten done ++ flatten []))%nat with false;
      [reflexivity|].
    symmetry. apply Nat.ltb_ge. rewrite length_app, !flatten_length. cbn [length]. lia.
  - destruct n as [|n]; [cbn [length] in Hn; lia|].
    destruct indices as [|i0 [|i1 [|i2 indices]]]; try (cbn [length] in Hidx; lia).
    cbn [cut_loop].
    assert (Hlt : (3 * length done
                   <? length (flatten done ++ flatten ((a, b, c) :: rest)))%nat = true).
    { apply Nat.ltb_lt. rewrite length_app, !flatten_length. cbn [length]. lia. }
    rewrite Hlt. clear Hlt.
    change (flatten ((a, b, c) :: rest)) with (a :: b :: c :: flatten rest).
    assert (Ha : nth_error (flatten done ++ a :: b :: c :: flatten rest)
                           (3 * length done) = Some a).
    { rewrite <- (flatten_length done). now rewrite nth_error_app_0. }
    assert (Hb : nth_error (flatten done ++ a :: b :: c :: flatten rest)
                           (3 * length done + 1) = Some b).
    { rewrite <- (flatten_length done). now rewrite nth_error_app_plus. }
    assert (Hc : nth_error (flatten done ++ a :: b :: c :: flatten rest)
                           (3 * length done + 2) = Some c).
    { rewrite <- (flatten_length done). now rewrite nth_error_app_plus. }
    rewrite Ha, Hb, Hc. clear Ha Hb Hc. cbn [radius_at].
    rewrite <- Hout.
    assert (Hstep : forall x y z : nat,
               cut_loop (flatten done ++ a :: b :: c :: flatten rest) radiusList n
                        (length out + 3) (out ++ x :: y :: z :: indices)
               = out ++ [x; y; z] ++ flat_map (cut_triangle radiusList) rest).
    { intros x y z.
      replace (flatten done ++ a :: b :: c :: flatten rest)
        with (flatten (done ++ [(a, b, c)]) ++ flatten rest)
        by (rewrite flatten_app, <- app_assoc; reflexivity).
      replace (length out + 3)%nat with (3 * length (done ++ [(a, b, c)]))%nat
        by (rewrite length_app; cbn [length]; lia).
      replace (out ++ x :: y :: z :: indices) with ((out ++ [x; y; z]) ++ indices)
        by (rewrite <- app_assoc; reflexivity).
      rewrite IH.
      - now rewrite <- app_assoc.
      - rewrite !length_app. cbn [length]. lia.
      - cbn [length] in Hidx. lia.
      - cbn [length] in Hn. lia. }
    cbn [flat_map]. unfold cut_triangle at 1.
    destruct (exceeds _).
    + rewrite write_app_0. cbn [write]. rewrite !write_app. cbn [write].
      apply Hstep.
    + rewrite write_app_0. cbn [write]. rewrite !write_app. cbn [write].
      apply Hstep.
Qed.

Lemma cut_mesh_spec (triangles : list (nat * nat * nat)) (radiusList : list R)
      (indices : list nat) :
  length indices = (3 * length triangles)%nat ->
  cut_mesh (flatten triangles) radiusList indices
  = flat_map (cut_triangle radiusList) triangles.
Proof.
  intros Hlen. unfold cut_mesh.
  pose proof (cut_loop_triangles radiusList triangles [] (length (flatten triangles))
                                 [] indices eq_refl Hlen) as Hspec.
  cbn [flatten flat_map app length Nat.mul] in Hspec. apply Hspec.
  fold (flatten triangles). rewrite flatten_length. lia.
Qed.

Lemma cut_triangle_at (radiusList : list R) (triangles : list (nat * nat * nat)) :
  forall (k : nat) (t : nat * nat * nat),
    nth_error triangles k = Some t ->
    firstn 3 (skipn (3 * k) (flat_map (cut_triangle radiusList) triangles))
    = cut_triangle radiusList t.
Proof.
  induction triangles as [|t0 rest IH]; intros k t Hk.
  - destruct k; discriminate.
  - cbn [flat_map]. pose proof (cut_triangle_length radiusList t0) as Hlen.
    destruct (cut_triangle radiusList t0) as [|x [|y [|z [|w l]]]] eqn:E;
      try discriminate.
    destruct k as [|k].
    + injection Hk as <-. rewrite E. reflexivity.
    + cbn [nth_error] in Hk. replace (3 * S k)%nat with (3 + 3 * k)%nat by lia.
      cbn [Nat.add app skipn]. apply IH. exact Hk.
Qed.

Lemma exceeds_iff (rA rB rC : R) :
  exceeds (max_diff (Some rA) (Some rB) (Some rC)) = true
  <-> (2 < Rabs (rA - rB) \/ 2 < Rabs (rA - rC) \/ 2 < Rabs (rB - rC)).
Proof.
  unfold exceeds, max_diff, gapThreshold. rewrite Rltb_true_iff.
  unfold Rmax. repeat destruct (Rle_dec _ _); lra.
Qed.

(** X16.  The second loop of [updateWaterSurface] never resizes the index
    buffer, and on a buffer of triangles it leaves in the three slots of
    each triangle [(a, b, c)] either zeros or the original indices: zeros
    when two of the radii stored for [a], [b], [c] differ by more than
    [gapThreshold = 2], the original indices when no two of them do. *)
Theorem cut_mesh_triangles :
  (forall (originalIndices : list nat) (radiusList : list R) (indices : list nat),
      length (cut_mesh originalIndices radiusList indices) = length indices)
  /\
  (forall (triangles : list (nat * nat * nat)) (radiusList : list R) (indices : list nat)
          (k a b c : nat) (rA rB rC : R),
      length indices = (3 * length triangles)%nat ->
      nth_error triangles k = Some (a, b, c) ->
      nth_error radiusList a = Some rA ->
      nth_error radiusList b = Some rB ->
      nth_error radiusList c = Some rC ->
      let slots :=
        firstn 3 (skipn (3 * k) (cut_mesh (flatten triangles) radiusList indices)) in
      (2 < Rabs (rA - rB) \/ 2 < Rabs (rA - rC) \/ 2 < Rabs (rB - rC) ->
       slots = [O; O; O])
      /\ (Rabs (rA - rB) <= 2 /\ Rabs (rA - rC) <= 2 /\ Rabs (rB - rC) <= 2 ->
          slots = [a; b; c])).
Proof.
  split.
  - intros originalIndices radiusList indices. apply cut_loop_length.
  - intros triangles radiusList indices k a b c rA rB rC Hlen Hk HA HB HC slots.
    subst slots. rewrite (cut_mesh_spec _ _ _ Hlen), (cut_triangle_at _ _ _ _ Hk).
    unfold cut_triangle. rewrite HA, HB, HC.
    pose proof (exceeds_iff rA rB rC) as Hex.
    destruct (exceeds _); split; intros Hr.
    + reflexivity.
    + assert (Hgap : 2 < Rabs (rA - rB) \/ 2 < Rabs (rA - rC) \/ 2 < Rabs (rB - rC))
        by now apply Hex.
      lra.
    + apply Hex in Hr. discriminate.
    + reflexivity.
Qed.

Lemma cut_mesh_triangles_witness :
  firstn 3 (skipn (3 * 1)
              (cut_mesh (flatten [(0, 1, 2); (1, 2, 3)]%nat) [3; 4; 5; 8]
                        [7; 7; 7; 7; 7; 7]%nat))
  = [O; O; O].
Proof.
  refine (proj1 (proj2 cut_mesh_triangles [(0, 1, 2); (1, 2, 3)]%nat [3; 4; 5; 8]
                       [7; 7; 7; 7; 7; 7]%nat 1%nat 1%nat 2%nat 3%nat 4 5 8
                       eq_refl eq_refl eq_refl eq_refl eq_refl) _).
  right. left. unfold Rabs. destruct (Rcase_abs (4 - 8)); lra.
Defined.

(** X17.  The cut leaves no trace of an earlier one: on a buffer of
    triangles the result does not depend on what [indices] held before, so
    cutting for new radii after a cut for old ones is cutting the original
    mesh for the new radii. *)
Theorem cut_mesh_restores (triangles : list (nat * nat * nat)) (radiusList radiusList' : list R)
        (indices indices' : list nat) :
  length indices = (3 * length triangles)%nat ->
  length indices' = (3 * length triangles)%nat ->
  cut_mesh (flatten triangles) radiusList indices
  = cut_mesh (flatten triangles) radiusList indices'
  /\ cut_mesh (flatten triangles) radiusList
              (cut_mesh (flatten triangles) radiusList' indices)
     = cut_mesh (flatten triangles) radiusList (flatten triangles).
Proof.
  intros Hlen Hlen'. split.
  - now rewrite !cut_mesh_spec.
  - rewrite (cut_mesh_spec triangles radiusList (flatten triangles))
      by apply flatten_length.
    apply cut_mesh_spec. unfold cut_mesh. now rewrite cut_loop_length.
Qed.

Lemma cut_mesh_restores_witness :
  cut_mesh (flatten [(0, 1, 2)]%nat) [3; 4; 5] (cut_mesh (flatten [(0, 1, 2)]%nat) [3; 4; 8] [7; 7; 7]%nat)
  = cut_mesh (flatten [(0, 1, 2)]%nat) [3; 4; 5] (flatten [(0, 1, 2)]%nat).
Proof.
  exact (proj2 (cut_mesh_restores [(0, 1, 2)]%nat [3; 4; 5] [3; 4; 8]
                                  [7; 7; 7]%nat [7; 7; 7]%nat eq_refl eq_refl)).
Defined.

(** X18.  No tear without a gap: when all the stored radii lie within one
    interval of width [gapThreshold = 2], the cut gives back the original
    index buffer, whatever [indices] held; and whatever the radii, a
    triangle with a vertex index outside [radiusList] keeps its three
    indices. *)
Theorem cut_mesh_no_tear :
  (forall (triangles : list (nat * nat * nat)) (radiusList : list R)
          (indices : list nat) (lo : R),
      length indices = (3 * length triangles)%nat ->
      Forall (fun r => lo <= r <= lo + 2) radiusList ->
      cut_mesh (flatten triangles) radiusList indices = flatten triangles)
  /\
  (forall (triangles : list (nat * nat * nat)) (radiusList : list R)
          (indices : list nat) (k a b c : nat),
      length indices = (3 * length triangles)%nat ->
      nth_error triangles k = Some (a, b, c) ->
      nth_error radiusList a = None \/ nth_error radiusList b = None
      \/ nth_error radiusList c = None ->
      firstn 3 (skipn (3 * k) (cut_mesh (flatten triangles) radiusList indices))
      = [a; b; c]).
Proof.
  split.
  - intros triangles radiusList indices lo Hlen Hr.
    rewrite (cut_mesh_spec _ _ _ Hlen). clear Hlen.
    rewrite Forall_forall in Hr.
    induction triangles as [|[[a b] c] rest IH]; [reflexivity|].
    unfold flatten in *. cbn [flat_map]. rewrite IH. f_equal.
    unfold cut_triangle.
    destruct (nth_error radiusList a) as [rA|] eqn:HA; [|reflexivity].
    destruct (nth_error radiusList b) as [rB|] eqn:HB; [|reflexivity].
    destruct (nth_error radiusList c) as [rC|] eqn:HC; [|reflexivity].
    apply nth_error_In, Hr in HA. apply nth_error_In, Hr in HB.
    apply nth_error_In, Hr in HC.
    pose proof (exceeds_iff rA rB rC) as Hex.
    destruct (exceeds _); [|reflexivity].
    assert (Hgap : 2 < Rabs (rA - rB) \/ 2 < Rabs (rA - rC) \/ 2 < Rabs (rB - rC))
      by now apply Hex.
    exfalso. revert Hgap. unfold Rabs.
    destruct (Rcase_abs (rA - rB)), (Rcase_abs (rA - rC)), (Rcase_abs (rB - rC)); lra.
  - intros triangles radiusList indices k a b c Hlen Hk Hnone.
    rewrite (cut_mesh_spec _ _ _ Hlen), (cut_triangle_at _ _ _ _ Hk).
    unfold cut_triangle.
    destruct (nth_error radiusList a); [|reflexivity].
    destruct (nth_error radiusList b); [|reflexivity].
    destruct (nth_error radiusList c); [|reflexivity].
    destruct Hnone as [Hn | [Hn | Hn]]; discriminate.
Qed.

Lemma cut_mesh_no_tear_witness :
  cut_mesh (flatten [(0, 1, 2); (1, 2, 3)]%nat) [3; 4; 5; 9/2] [0; 0; 0; 0; 0; 0]%nat
  = flatten [(0, 1, 2); (1, 2, 3)]%nat
  /\ firstn 3 (skipn (3 * 0) (cut_mesh (flatten [(0, 1, 7)]%nat) [3; 8] [0; 0; 0]%nat))
     = [0; 1; 7]%nat.
Proof.
  split.
  - apply (proj1 cut_mesh_no_tear [(0, 1, 2); (1, 2, 3)]%nat [3; 4; 5; 9/2]
                 [0; 0; 0; 0; 0; 0]%nat 3 eq_refl).
    repeat (apply Forall_cons; [lra|]). apply Forall_nil.
  - apply (proj2 cut_mesh_no_tear [(0, 1, 7)]%nat [3; 8] [0; 0; 0]%nat
                 0%nat 0%nat 1%nat 7%nat eq_refl eq_refl).
    right. right. reflexivity.
Defined.

(** ** createEggGeometry *)

(** X19.  [createEggGeometry] keeps the height of every vertex, leaves the
    lower half of the sphere as it is, and in the upper half pulls a vertex
    towards the axis by one factor for [x] and [z], between 0.7 and 1 for a
    taper within the slider's range [0, 0.5]. *)
Theorem createEggGeometry_taper (radius taper : R) (vertex : THREE.Vector3 R) :
  0 < radius -> 0 <= taper <= 1 / 2 -> THREE.y vertex <= radius ->
  let tapered := taper_vertex radius taper vertex in
  THREE.y tapered = THREE.y vertex
  /\ (THREE.y vertex <= 0 -> tapered = vertex)
  /\ (exists scale : R,
         7 / 10 <= scale <= 1
         /\ THREE.x tapered = THREE.x vertex * scale
         /\ THREE.z tapered = THREE.z vertex * scale
         /\ (0 < THREE.y vertex -> 0 < taper -> scale < 1)).
Proof.
  intros Hradius Htaper Hy tapered. subst tapered.
  destruct vertex as [x y z]. unfold taper_vertex.
  cbn [THREE.x THREE.y THREE.z] in *. real_arith.
  split; [reflexivity|]. split.
  - intros Hy0. destruct (Rltb 0 y) eqn:E.
    + apply Rltb_true_iff in E. lra.
    + f_equal; ring.
  - destruct (Rltb 0 y) eqn:E.
    + apply Rltb_true_iff in E.
      exists (1 - taper * (y / radius) * (6 / 10)).
      assert (Hq : 0 < y / radius <= 1).
      { split.
        - apply Rdiv_lt_0_compat; lra.
        - apply (Rmult_le_reg_r radius); [lra|]. unfold Rdiv.
          rewrite Rmult_assoc, Rinv_l; lra. }
      assert (Hp : 0 <= taper * (y / radius) <= 1 / 2) by nra.
      repeat split; try lra.
      intros _ Ht. assert (0 < taper * (y / radius)) by (apply Rmult_lt_0_compat; lra).
      lra.
    + exists 1. repeat split; try lra. apply Rltb_false_iff in E. intros; lra.
Qed.

Lemma createEggGeometry_taper_witness :
  THREE.y (taper_vertex 4 (2 / 10) (THREE.mkVector3 R 0 4 0)) = 4.
Proof.
  apply (createEggGeometry_taper 4 (2 / 10) (THREE.mkVector3 R 0 4 0));
    cbn [THREE.y]; lra.
Defined.


(** ** The water potential of the configurations *)

Lemma getPotential_nonpositive (this : PhysicsSimulation R) (x y z : R) :
  0 <= G this ->
  Forall (fun p => 0 <= PointMass.m p) (masses this) ->
  getPotential this x y z <= 0.
Proof.
  intros HG Hm.
  destruct (near_or_far x y z (masses this)) as [Hn | Hf].
  - unfold getPotential. rewrite potential_loop_near by exact Hn. lra.
  - rewrite getPotential_far by exact Hf.
    pose proof (gravity_terms_range this x y z (masses this) HG Hm Hf).
    assert (0 <= 0.5 * omega this ^ 2 * (x ^ 2 + z ^ 2)) by (simpl; nra).
    lra.
Qed.

(** X21.  Both pages take as water potential the potential of a surface
    point times a factor of 1 or more (1.1 and 1.002).  The potential not
    being positive, this lowers the target: in every direction the radius
    solved for the scaled potential is at most the one solved for the
    surface potential, and on the ray of the surface point, with every
    mass at a height between -2 and 2 and [3000·omega² < G·Σm_i], it
    exceeds the radius of that point by at most [5/2^16]. *)
Theorem scaled_surface_potential
        (this : PhysicsSimulation R) (dx dy dz r0 k : R) :
  0 <= G this ->
  Forall (fun p => Rabs (PointMass.y p) <= 2 /\ 0 <= PointMass.m p) (masses this) ->
  3000 * omega this ^ 2 < G this * Rsum (map (@PointMass.m R) (masses this)) ->
  dx * dx + dy * dy + dz * dz = 1 ->
  3 < r0 < 8 ->
  1 <= k ->
  let surfacePot := getPotential this (r0 * dx) (r0 * dy) (r0 * dz) in
  (forall ex ey ez : R,
      solveRadius this ex ey ez (surfacePot * k) <= solveRadius this ex ey ez surfacePot)
  /\ solveRadius this dx dy dz (surfacePot * k) <= r0 + 5 / 2 ^ 16.
Proof.
  intros HG Hms Hw Hu Hr0 Hk surfacePot.
  assert (Hm : Forall (fun p => 0 <= PointMass.m p) (masses this)).
  { revert Hms. apply Forall_impl. intros p [_ Hp]. exact Hp. }
  pose proof (getPotential_nonpositive this (r0 * dx) (r0 * dy) (r0 * dz) HG Hm) as Hneg.
  fold surfacePot in Hneg.
  assert (Ht : surfacePot * k <= surfacePot) by nra.
  assert (Hall : forall ex ey ez : R,
             solveRadius this ex ey ez (surfacePot * k)
             <= solveRadius this ex ey ez surfacePot).
  { intros ex ey ez. apply real_solveRadius_monotone_in_target. exact Ht. }
  split; [exact Hall|].
  assert (Hinc : forall r r' : R, 3 <= r -> r < r' -> r' <= 8 ->
      getPotential this (r * dx) (r * dy) (r * dz)
      < getPotential this (r' * dx) (r' * dy) (r' * dz)).
  { intros r r' H3 Hlt H8. now apply axis_masses_increasing. }
  pose proof (real_round_trip this dx dy dz r0 Hinc Hr0) as Hrt.
  fold surfacePot in Hrt.
  pose proof (Hall dx dy dz) as Hle.
  revert Hrt Hle.
  generalize (solveRadius this dx dy dz (surfacePot * k)).
  generalize (solveRadius this dx dy dz surfacePot).
  intros a b Hrt Hle.
  apply Rabs_bound in Hrt. lra.
Qed.

(** The configuration of sphere.js: one mass 8 at the origin,
    [omega = 0.02], the surface point (4, 0, 0) and the factor 1.002. *)
Lemma scaled_surface_potential_witness :
  let sim := {| masses := [PointMass.mk R 0 8]; G := 1; omega := 0.02 |} in
  solveRadius sim 1 0 0 (getPotential sim (4 * 1) (4 * 0) (4 * 0) * 1.002)
  <= 4 + 5 / 2 ^ 16.
Proof.
  intros sim.
  assert (HG : 0 <= G sim) by (cbn; lra).
  assert (Hms : Forall (fun p => Rabs (PointMass.y p) <= 2 /\ 0 <= PointMass.m p)
                       (masses sim)).
  { cbn [masses sim]. apply Forall_cons; [|apply Forall_nil]. cbn [PointMass.y PointMass.m].
    split; [rewrite Rabs_R0|]; lra. }
  assert (Hw : 3000 * omega sim ^ 2 < G sim * Rsum (map (@PointMass.m R) (masses sim))).
  { cbn [masses sim omega G map PointMass.m]. rewrite Rsum_cons. unfold Rsum; simpl. lra. }
  apply (scaled_surface_potential sim 1 0 0 4 1.002 HG Hms Hw); lra.
Defined.
